(** * The Postgres driver of kysely: lifecycle, identity cache, query execution

    A shallow embedding of [src/dialect/postgres/postgres-driver.ts].

    The file under study is asynchronous JavaScript talking to three
    collaborators it does not own: the module loader ([import('pg')]), the
    [pg] pool with its clients, and the caller's [onCreateConnection] hook.
    The embedding is a state-and-exception monad over a [world] holding the
    driver's private fields, the objects the file allocates, and a log of
    every call made to a collaborator.  What a collaborator answers is given
    by an oracle reading the log up to and including the call, so every
    theorem quantified over the oracle covers every behaviour of the
    collaborators.  Operations run one after the other: interleavings of
    several pending calls are outside this model. *)

From Stdlib Require Import ZArith String List Bool Lia.
From stdpp Require Import base option list gmap strings.

Local Open Scope string_scope.
Local Open Scope list_scope.

(** ** Object identities

    Objects are named by natural numbers; two references are the same object
    exactly when the numbers are equal (JavaScript's [===] on objects). *)

Abbreviation pool_ref := nat (only parsing).
Abbreviation client := nat (only parsing).
Abbreviation conn_ref := nat (only parsing).
Abbreviation arr_ref := nat (only parsing).
Abbreviation obj_ref := nat (only parsing).

(** ** Values *)

(** A thrown value: an error object with its class name, its message and,
    when it wraps another error, that error. *)
Inductive js_error : Type :=
| ErrorObject (cls : string) (message : string)
| ErrorWithCause (cls : string) (message : string) (cause : js_error).

Definition err_class (e : js_error) : string :=
  match e with ErrorObject c _ | ErrorWithCause c _ _ => c end.

Definition err_message (e : js_error) : string :=
  match e with ErrorObject _ m | ErrorWithCause _ m _ => m end.

Definition err_cause (e : js_error) : option js_error :=
  match e with ErrorObject _ _ => None | ErrorWithCause _ _ c => Some c end.

(** [new Error(message)] *)
Definition new_Error (message : string) : js_error :=
  ErrorObject "Error" message.

(** What the engine raises when a property of [null] is read. *)
Definition null_property_error (prop : string) : js_error :=
  ErrorObject "TypeError"
    ("Cannot read properties of null (reading '" +:+ prop +:+ "')").

(** What the engine raises when something that is not a function is called. *)
Definition not_a_function_error : js_error :=
  ErrorObject "TypeError" "pgConnection[PRIVATE_RELEASE_METHOD] is not a function".

(** What the engine raises, in strict code, on a write to a frozen object. *)
Definition read_only_error (prop : string) : js_error :=
  ErrorObject "TypeError"
    ("Cannot assign to read only property '" +:+ prop +:+ "' of object").

Inductive js_value : Type :=
| VUndefined
| VNull
| VBool (b : bool)
| VNumber (n : Z)
| VString (s : string)
| VArray (a : arr_ref).

(** A result row: column name and value, in column order. *)
Abbreviation row := (list (string * js_value)) (only parsing).

(** [CompiledQuery], as the query compiler hands it over. *)
Record CompiledQuery : Type := {
  sql : string;
  bindings : list js_value;
}.

(** The result object of [pg]'s [client.query]; [rows] is an array of [pg]. *)
Record pg_QueryResult : Type := {
  command : string;
  rowCount : Z;
  rows : arr_ref;
}.

(** What the database answers to a statement. *)
Record pg_answer : Type := {
  ans_command : string;
  ans_rowCount : Z;
  ans_rows : list row;
}.

(** An object with named properties; [frozen] is set by [Object.freeze]. *)
Record js_object : Type := {
  props : gmap string js_value;
  frozen : bool;
}.

(** The module object of [pg]. *)
Inductive pg_module : Type := PgModule.

(** The options literal handed to [new pg.Pool]. *)
Record PoolOptions : Type := {
  opt_host : string;
  opt_database : string;
  opt_port : Z;
  opt_user : string;
  opt_password : string;
  opt_connectionTimeoutMillis : Z;
  opt_idleTimeoutMillis : Z;
  opt_max : Z;
}.

(** A [PostgresConnection]: its one private field. *)
Record PostgresConnection : Type := {
  conn_client : client;
}.

(** ** Calls to collaborators *)

Inductive event : Type :=
| EImport (specifier : string)
| ENewPool (opts : PoolOptions)
| EPoolEnd (p : pool_ref)
| EPoolConnect (p : pool_ref)
| EOnCreateConnection (k : conn_ref)
| EClientQuery (c : client) (text : string) (values : list js_value)
| EClientRelease (c : client).

(** A promise, by the way it settles. *)
Inductive promise (A : Type) : Type :=
| Fulfilled (a : A)
| Rejected (e : js_error).
Arguments Fulfilled {A} a.
Arguments Rejected {A} e.

(** The completion of a piece of code: a value, or a thrown error. *)
Inductive completion (A : Type) : Type :=
| Normal (a : A)
| Throw (e : js_error).
Arguments Normal {A} a.
Arguments Throw {A} e.

(** The collaborators' answers.  Each oracle reads the log ending with the
    call it answers. *)
Record backend : Type := {
  import_settles : list event -> promise pg_module;
  end_settles : list event -> promise unit;
  connect_settles : list event -> promise client;
  query_settles : list event -> promise pg_answer;
  release_completes : list event -> completion unit;
}.

(** The part of [this.config] the driver reads ([DriverConfig] is declared
    outside this file; the fields are those [initImpl] and
    [acquireConnectionImpl] use). *)
Record PoolConfig : Type := {
  connectionTimeoutMillis : Z;
  idleTimeoutMillis : Z;
  maxConnections : Z;
  onCreateConnection : option (list event -> promise unit);
}.

Record DriverConfig : Type := {
  cfg_host : string;
  cfg_database : string;
  cfg_port : Z;
  cfg_user : string;
  cfg_password : string;
  cfg_pool : PoolConfig;
}.

(** ** The world *)

Record world : Type := {
  pool : option pool_ref;               (* this.#pool *)
  connections : gmap client conn_ref;   (* this.#connections *)
  wrappers : list PostgresConnection;   (* every PostgresConnection built *)
  objects : list js_object;             (* every object literal built *)
  arrays : list (list row);             (* every array pg handed over *)
  log : list event;                     (* calls to collaborators, oldest first *)
}.

(** [new PostgresDriver(config)]: [#pool = null], [#connections = new WeakMap()].

    The WeakMap is a finite map on client identities.  Its weakness only
    drops entries whose key nobody can reach any more, and such a client can
    never come out of [pool.connect()] again, so no lookup can tell. *)
Definition new_PostgresDriver : world :=
  {| pool := None; connections := ∅; wrappers := []; objects := [];
     arrays := []; log := [] |}.

(** ** The monad *)

Definition M (A : Type) : Type := world -> completion A * world.

Definition ret {A} (a : A) : M A := fun w => (Normal a, w).

Definition throw {A} (e : js_error) : M A := fun w => (Throw e, w).

Definition bind {A B} (m : M A) (k : A -> M B) : M B :=
  fun w =>
    match m w with
    | (Normal a, w') => k a w'
    | (Throw e, w') => (Throw e, w')
    end.

(** [try { body } catch (error) { handler }] *)
Definition try_catch {A} (body : M A) (handler : js_error -> M A) : M A :=
  fun w =>
    match body w with
    | (Normal a, w') => (Normal a, w')
    | (Throw e, w') => handler e w'
    end.

(** [await p]; also what the promise of an [async] function does with a
    promise the body returns. *)
Definition await {A} (p : promise A) : M A :=
  match p with
  | Fulfilled a => ret a
  | Rejected e => throw e
  end.

Declare Scope js_scope.
Delimit Scope js_scope with js.
Notation "x <- m ;; k" := (bind m (fun x => k))
  (at level 100, m at next level, right associativity) : js_scope.
Notation "m ;;; k" := (bind m (fun _ => k))
  (at level 100, right associativity) : js_scope.
Local Open Scope js_scope.

(** ** Reading and writing the world *)

Definition with_pool (p : option pool_ref) (w : world) : world :=
  {| pool := p; connections := connections w; wrappers := wrappers w;
     objects := objects w; arrays := arrays w; log := log w |}.

Definition with_connections (m : gmap client conn_ref) (w : world) : world :=
  {| pool := pool w; connections := m; wrappers := wrappers w;
     objects := objects w; arrays := arrays w; log := log w |}.

Definition with_wrappers (l : list PostgresConnection) (w : world) : world :=
  {| pool := pool w; connections := connections w; wrappers := l;
     objects := objects w; arrays := arrays w; log := log w |}.

Definition with_objects (l : list js_object) (w : world) : world :=
  {| pool := pool w; connections := connections w; wrappers := wrappers w;
     objects := l; arrays := arrays w; log := log w |}.

Definition with_arrays (l : list (list row)) (w : world) : world :=
  {| pool := pool w; connections := connections w; wrappers := wrappers w;
     objects := objects w; arrays := l; log := log w |}.

Definition with_log (l : list event) (w : world) : world :=
  {| pool := pool w; connections := connections w; wrappers := wrappers w;
     objects := objects w; arrays := arrays w; log := l |}.

Definition get_pool : M (option pool_ref) := fun w => (Normal (pool w), w).

Definition set_pool (p : option pool_ref) : M unit :=
  fun w => (Normal tt, with_pool p w).

(** [this.#pool!.prop]: the [!] is erased by the compiler. *)
Definition pool_member (prop : string) : M pool_ref :=
  p <- get_pool ;;
  match p with
  | Some p => ret p
  | None => throw (null_property_error prop)
  end.

(** [this.#connections.get(client)] *)
Definition connections_get (c : client) : M (option conn_ref) :=
  fun w => (Normal (connections w !! c), w).

(** [this.#connections.set(client, connection)] *)
Definition connections_set (c : client) (k : conn_ref) : M unit :=
  fun w => (Normal tt, with_connections (<[c := k]> (connections w)) w).

(** [new PostgresConnection(client)] *)
Definition new_PostgresConnection (c : client) : M conn_ref :=
  fun w => (Normal (length (wrappers w)),
            with_wrappers (wrappers w ++ [{| conn_client := c |}]) w).

Definition emit (e : event) : M unit :=
  fun w => (Normal tt, with_log (log w ++ [e]) w).

Definition history : M (list event) := fun w => (Normal (log w), w).

(** An object literal. *)
Definition new_object (fields : list (string * js_value)) : M obj_ref :=
  fun w => (Normal (length (objects w)),
            with_objects
              (objects w ++ [{| props := list_to_map fields; frozen := false |}]) w).

Definition new_array (content : list row) : M arr_ref :=
  fun w => (Normal (length (arrays w)), with_arrays (arrays w ++ [content]) w).

(** [[...xs]]: a new array filled by iterating [xs]. *)
Fixpoint spread_into (acc xs : list js_value) : list js_value :=
  match xs with
  | [] => acc
  | x :: rest => spread_into (acc ++ [x]) rest
  end.

Definition spread (xs : list js_value) : list js_value := spread_into [] xs.

(** How many pools [new pg.Pool] has built. *)
Fixpoint pools_created (l : list event) : nat :=
  match l with
  | [] => 0
  | ENewPool _ :: rest => S (pools_created rest)
  | _ :: rest => pools_created rest
  end.

(** How many times the creation hook has been called with wrapper [k]. *)
Fixpoint hook_calls (k : conn_ref) (l : list event) : nat :=
  match l with
  | [] => 0
  | EOnCreateConnection k' :: rest =>
      (if Nat.eqb k' k then 1 else 0) + hook_calls k rest
  | _ :: rest => hook_calls k rest
  end.

(** How many times [pool.end()] has been called. *)
Fixpoint end_calls (l : list event) : nat :=
  match l with
  | [] => 0
  | EPoolEnd _ :: rest => S (end_calls rest)
  | _ :: rest => end_calls rest
  end.

(** How many times the module loader has been asked. *)
Fixpoint import_calls (l : list event) : nat :=
  match l with
  | [] => 0
  | EImport _ :: rest => S (import_calls rest)
  | _ :: rest => import_calls rest
  end.

(** How many statements have been sent. *)
Fixpoint query_calls (l : list event) : nat :=
  match l with
  | [] => 0
  | EClientQuery _ _ _ :: rest => S (query_calls rest)
  | _ :: rest => query_calls rest
  end.

(** ** The collaborators, as the file calls them *)

Section Driver.

Context (B : backend) (config : DriverConfig).

(** [import(specifier)]: always a promise; a module that cannot be resolved
    rejects it, nothing is thrown at the call. *)
Definition dynamic_import (specifier : string) : M (promise pg_module) :=
  emit (EImport specifier) ;;;
  h <- history ;;
  ret (import_settles B h).

(** [new pg.Pool(opts)]: the pool opens no connection yet. *)
Definition new_Pool (pg : pg_module) (opts : PoolOptions) : M pool_ref :=
  h <- history ;;
  emit (ENewPool opts) ;;;
  ret (pools_created h).

(** [pool.end()] *)
Definition Pool_end (p : pool_ref) : M (promise unit) :=
  emit (EPoolEnd p) ;;;
  h <- history ;;
  ret (end_settles B h).

(** [pool.connect()] *)
Definition Pool_connect (p : pool_ref) : M (promise client) :=
  emit (EPoolConnect p) ;;;
  h <- history ;;
  ret (connect_settles B h).

(** [client.query(text, values)]; when the database answers, [pg] builds the
    result object and its [rows] array. *)
Definition Client_query (c : client) (text : string) (values : list js_value)
  : M (promise pg_QueryResult) :=
  emit (EClientQuery c text values) ;;;
  h <- history ;;
  match query_settles B h with
  | Fulfilled ans =>
      a <- new_array (ans_rows ans) ;;
      ret (Fulfilled {| command := ans_command ans;
                        rowCount := ans_rowCount ans;
                        rows := a |})
  | Rejected e => ret (Rejected e)
  end.

(** [client.release()] *)
Definition Client_release (c : client) : M unit :=
  emit (EClientRelease c) ;;;
  h <- history ;;
  match release_completes B h with
  | Normal _ => ret tt
  | Throw e => throw e
  end.

(** Calling the hook [f] with the wrapper [k]. *)
Definition call_hook (f : list event -> promise unit) (k : conn_ref)
  : M (promise unit) :=
  emit (EOnCreateConnection k) ;;;
  h <- history ;;
  ret (f h).

(** ** [PostgresConnection] *)

(** [[PRIVATE_RELEASE_METHOD](): void] *)
Definition PRIVATE_RELEASE_METHOD (this : PostgresConnection) : M unit :=
  Client_release (conn_client this).

(** [result.command === 'UPDATE' || result.command === 'DELETE'] *)
Definition is_update_or_delete (cmd : string) : bool :=
  String.eqb cmd "UPDATE" || String.eqb cmd "DELETE".

(** Modelled from the spec: [freeze] of [util/object-utils], which is not
    part of the source.  The spec has the result object immutable once
    returned; [freeze] is taken to be [Object.freeze]: it marks the object
    itself, so that its properties can no longer be written, added or
    removed, and returns the same object. *)
Definition freeze (o : obj_ref) : M obj_ref :=
  fun w =>
    (Normal o,
     with_objects
       (alter (fun ob => {| props := props ob; frozen := true |}) o (objects w)) w).

(** [async executeQuery<O>(compiledQuery: CompiledQuery): Promise<QueryResult<O>>] *)
Definition executeQuery (this : PostgresConnection) (compiledQuery : CompiledQuery)
  : M obj_ref :=
  p <- Client_query (conn_client this) (sql compiledQuery)
         (spread (bindings compiledQuery)) ;;
  result <- await p ;;
  o <- new_object
         [ ("numUpdatedOrDeletedRows",
            if is_update_or_delete (command result)
            then VNumber (rowCount result)
            else VUndefined);
           ("insertedPrimaryKey", VUndefined);
           ("rows", VArray (rows result)) ] ;;
  freeze o.

(** ** [importPg] *)

Definition install_message : string :=
  "Postgres client not installed. Please run `npm install pg`".

(** [async function importPg()].  The [try] block returns the promise of
    [import('pg')] without awaiting it, so the block completes normally with
    that promise; the function's own promise then settles as it does. *)
Definition importPg : M pg_module :=
  p <- try_catch (dynamic_import "pg")
         (fun error => throw (new_Error install_message)) ;;
  await p.

(** ** [PostgresDriver] *)

Definition getDefaultPort : Z := 5432.

(** [protected async initImpl(): Promise<void>] *)
Definition initImpl : M unit :=
  pg <- importPg ;;
  let cfg := config in
  p <- new_Pool pg
         {| opt_host := cfg_host cfg;
            opt_database := cfg_database cfg;
            opt_port := cfg_port cfg;
            opt_user := cfg_user cfg;
            opt_password := cfg_password cfg;
            opt_connectionTimeoutMillis := connectionTimeoutMillis (cfg_pool cfg);
            opt_idleTimeoutMillis := idleTimeoutMillis (cfg_pool cfg);
            opt_max := maxConnections (cfg_pool cfg) |} ;;
  set_pool (Some p).

(** [protected async destroyImpl(): Promise<void>] *)
Definition destroyImpl : M unit :=
  p <- get_pool ;;
  match p with
  | Some pool =>
      set_pool None ;;;
      e <- Pool_end pool ;;
      await e
  | None => ret tt
  end.

(** [protected async acquireConnectionImpl(): Promise<DatabaseConnection>] *)
Definition acquireConnectionImpl : M conn_ref :=
  p <- pool_member "connect" ;;
  c <- Pool_connect p ;;
  client <- await c ;;
  connection <- connections_get client ;;
  match connection with
  | None =>
      connection <- new_PostgresConnection client ;;
      connections_set client connection ;;;
      match onCreateConnection (cfg_pool config) with
      | Some hook =>
          h <- call_hook hook connection ;;
          await h
      | None => ret tt
      end ;;;
      ret connection
  | Some connection => ret connection
  end.

(** [protected async releaseConnectionImpl(connection): Promise<void>].  A
    [connection] that is no [PostgresConnection] has no release method. *)
Definition releaseConnectionImpl (connection : conn_ref) : M unit :=
  fun w =>
    match wrappers w !! connection with
    | Some pgConnection => PRIVATE_RELEASE_METHOD pgConnection w
    | None => throw not_a_function_error w
    end.

(** ** What a caller can do *)

(** Writes a caller may try on what it was handed. *)
Inductive mutation : Type :=
| Assign (o : obj_ref) (f : string) (v : js_value)    (* o.f = v *)
| Delete (o : obj_ref) (f : string)                   (* delete o.f *)
| ArrayPush (a : arr_ref) (r : row).                  (* a.push(r) *)

Definition write_object (o : obj_ref) (f : string)
  (change : gmap string js_value -> gmap string js_value) : M unit :=
  fun w =>
    match objects w !! o with
    | Some ob =>
        if frozen ob then throw (read_only_error f) w
        else (Normal tt,
              with_objects
                (<[o := {| props := change (props ob); frozen := false |}]>
                   (objects w)) w)
    | None => (Normal tt, w)
    end.

Definition mutate (m : mutation) : M unit :=
  match m with
  | Assign o f v => write_object o f (insert f v)
  | Delete o f => write_object o f (delete f)
  | ArrayPush a r =>
      fun w => (Normal tt, with_arrays (alter (fun l => l ++ [r]) a (arrays w)) w)
  end.

(** Reading [o.f]; a property that is not there reads as [undefined]. *)
Definition get_property (o : obj_ref) (f : string) (w : world) : js_value :=
  match objects w !! o with
  | Some ob => default VUndefined (props ob !! f)
  | None => VUndefined
  end.

(** One call on the driver or on a wrapper it handed out. *)
Inductive op : Type :=
| OpInit
| OpDestroy
| OpAcquire
| OpRelease (k : conn_ref)
| OpExecute (k : conn_ref) (q : CompiledQuery)
| OpMutate (m : mutation).

Definition exec (o : op) (w : world) : world :=
  match o with
  | OpInit => snd (initImpl w)
  | OpDestroy => snd (destroyImpl w)
  | OpAcquire => snd (acquireConnectionImpl w)
  | OpRelease k => snd (releaseConnectionImpl k w)
  | OpExecute k q =>
      match wrappers w !! k with
      | Some this => snd (executeQuery this q w)
      | None => w
      end
  | OpMutate m => snd (mutate m w)
  end.

(** The calls of [ops], one after the other, whatever each returns. *)
Definition run (ops : list op) (w : world) : world := fold_left (fun w o => exec o w) ops w.

End Driver.

(** ** Vocabulary of the claims *)

(** The options [initImpl] builds the pool with. *)
Definition pool_options (config : DriverConfig) : PoolOptions :=
  {| opt_host := cfg_host config;
     opt_database := cfg_database config;
     opt_port := cfg_port config;
     opt_user := cfg_user config;
     opt_password := cfg_password config;
     opt_connectionTimeoutMillis := connectionTimeoutMillis (cfg_pool config);
     opt_idleTimeoutMillis := idleTimeoutMillis (cfg_pool config);
     opt_max := maxConnections (cfg_pool config) |}.


(** The call fails, and with an error of class [cls]. *)
Definition fails_with {A} (cls : string) (r : completion A) : Prop :=
  ∃ e, r = Throw e ∧ err_class e = cls.

(** The call fails with an error of class [cls] that wraps [inner]. *)
Definition fails_wrapping {A} (cls : string) (inner : js_error) (r : completion A)
  : Prop :=
  ∃ e, r = Throw e ∧ err_class e = cls ∧ err_cause e = Some inner.

(** In world [w] the pool is there and its next [connect()] yields client [c]. *)
Definition hands_out (B : backend) (w : world) (c : client) : Prop :=
  ∃ p, pool w = Some p ∧ connect_settles B (log w ++ [EPoolConnect p]) = Fulfilled c.

(** How often the hook is called per wrapper built: once if there is a hook. *)
Definition hook_quota (config : DriverConfig) : nat :=
  match onCreateConnection (cfg_pool config) with Some _ => 1 | None => 0 end.

(** No call in [ops] is [initImpl]. *)
Definition is_init (o : op) : bool :=
  match o with OpInit => true | _ => false end.

Definition no_init (ops : list op) : bool :=
  forallb (fun o => negb (is_init o)) ops.

(** ** Scenarios *)

Module Scenario.

Definition pool_settings (hook : option (list event -> promise unit)) : PoolConfig :=
  {| connectionTimeoutMillis := 1000; idleTimeoutMillis := 30000;
     maxConnections := 1; onCreateConnection := hook |}.

Definition cfg (hook : option (list event -> promise unit)) : DriverConfig :=
  {| cfg_host := "localhost"; cfg_database := "kysely_test"; cfg_port := 5432;
     cfg_user := "kysely"; cfg_password := "secret";
     cfg_pool := pool_settings hook |}.

Definition updated : pg_answer :=
  {| ans_command := "UPDATE"; ans_rowCount := 3; ans_rows := [] |}.

Definition selected : pg_answer :=
  {| ans_command := "SELECT"; ans_rowCount := 2;
     ans_rows := [[("id", VNumber 1)]; [("id", VNumber 2)]] |}.

(** Everything works; the pool has one client, number 7. *)
Definition healthy (ans : pg_answer) : backend :=
  {| import_settles := fun _ => Fulfilled PgModule;
     end_settles := fun _ => Fulfilled tt;
     connect_settles := fun _ => Fulfilled 7;
     query_settles := fun _ => Fulfilled ans;
     release_completes := fun _ => Normal tt |}.

Definition module_not_found : js_error :=
  ErrorObject "Error" "Cannot find module 'pg'".

(** [pg] is not installed. *)
Definition without_pg : backend :=
  {| import_settles := fun _ => Rejected module_not_found;
     end_settles := fun _ => Fulfilled tt;
     connect_settles := fun _ => Fulfilled 7;
     query_settles := fun _ => Fulfilled updated;
     release_completes := fun _ => Normal tt |}.

Definition unique_violation : js_error :=
  ErrorObject "error" "duplicate key value violates unique constraint".

(** The database rejects every statement. *)
Definition rejecting : backend :=
  {| import_settles := fun _ => Fulfilled PgModule;
     end_settles := fun _ => Fulfilled tt;
     connect_settles := fun _ => Fulfilled 7;
     query_settles := fun _ => Rejected unique_violation;
     release_completes := fun _ => Normal tt |}.

Definition hook_failure : js_error := ErrorObject "Error" "search_path not set".

Definition failing_hook : list event -> promise unit :=
  fun _ => Rejected hook_failure.

Definition passing_hook : list event -> promise unit :=
  fun _ => Fulfilled tt.

Definition insert_user : CompiledQuery :=
  {| sql := "update person set first_name = $1 where id = $2";
     bindings := [VString "Jennifer"; VNumber 1] |}.

Definition ok : backend := healthy updated.

Definition end_failure : js_error := ErrorObject "Error" "Connection terminated".

(** The pool cannot be drained: [pool.end()] rejects. *)
Definition stuck_pool : backend :=
  {| import_settles := fun _ => Fulfilled PgModule;
     end_settles := fun _ => Rejected end_failure;
     connect_settles := fun _ => Fulfilled 7;
     query_settles := fun _ => Fulfilled updated;
     release_completes := fun _ => Normal tt |}.

(** No hook; a hook that succeeds; a hook that fails. *)
Definition plain : DriverConfig := cfg None.

Definition hooked : DriverConfig := cfg (Some passing_hook).

Definition failing : DriverConfig := cfg (Some failing_hook).

(** A driver after [initImpl]; after [initImpl] and [destroyImpl]; after
    [initImpl] and one acquisition. *)
Definition initialised : world :=
  run (healthy updated) (cfg None) [OpInit] new_PostgresDriver.


Definition connected (B : backend) : world :=
  run B (cfg None) [OpInit; OpAcquire] new_PostgresDriver.

End Scenario.

(** The one call [executeQuery] makes. *)
Definition query_event (this : PostgresConnection) (q : CompiledQuery) : event :=
  EClientQuery (conn_client this) (sql q) (bindings q).

(** ** Invariants of the identity cache *)

Definition wrapper_of (c : client) : PostgresConnection := {| conn_client := c |}.

(** The property list of the literal [executeQuery] returns. *)
Definition result_fields (res : pg_QueryResult) : list (string * js_value) :=
  [ ("numUpdatedOrDeletedRows",
     if is_update_or_delete (command res) then VNumber (rowCount res)
     else VUndefined);
    ("insertedPrimaryKey", VUndefined);
    ("rows", VArray (rows res)) ].

(** How one call moves the cache: it leaves it alone, or it builds the
    wrapper of a client that had none, caches it and, if there is a hook,
    calls the hook with it. *)
Inductive cache_step (config : DriverConfig) (w w' : world) : Prop :=
| cache_same (d : list event) :
    connections w' = connections w →
    wrappers w' = wrappers w →
    log w' = log w ++ d →
    (∀ k, hook_calls k d = 0) →
    cache_step config w w'
| cache_grow (d : list event) (c : client) :
    connections w !! c = None →
    connections w' = <[c := length (wrappers w)]> (connections w) →
    wrappers w' = wrappers w ++ [wrapper_of c] →
    log w' = log w ++ d →
    (∀ k, hook_calls k d =
          if Nat.eqb (length (wrappers w)) k then hook_quota config else 0) →
    cache_step config w w'.

Record cache_ok (config : DriverConfig) (w : world) : Prop := {
  cached_wraps :
    ∀ c k, connections w !! c = Some k → wrappers w !! k = Some (wrapper_of c);
  wrapper_cached :
    ∀ k c, wrappers w !! k = Some (wrapper_of c) → connections w !! c = Some k;
  hooked_once :
    ∀ k, hook_calls k (log w) =
         if decide (k < length (wrappers w)) then hook_quota config else 0;
}.

(** ** Further bookkeeping *)

(** How many times [pool.end()] has been called on pool [p]. *)
Fixpoint end_calls_on (p : pool_ref) (l : list event) : nat :=
  match l with
  | [] => 0
  | EPoolEnd p' :: rest => (if Nat.eqb p' p then 1 else 0) + end_calls_on p rest
  | _ :: rest => end_calls_on p rest
  end.

(** How many times [client.release()] has been called. *)
Fixpoint release_calls (l : list event) : nat :=
  match l with
  | [] => 0
  | EClientRelease _ :: rest => S (release_calls rest)
  | _ :: rest => release_calls rest
  end.

(** The object [executeQuery] builds from what [pg] hands back. *)
Definition result_object (res : pg_QueryResult) : js_object :=
  {| props := list_to_map (result_fields res); frozen := true |}.

(** Every way one call can change the world. *)
Inductive effect (B : backend) (config : DriverConfig) (w : world) : world → Prop :=
| eff_idle :
    effect B config w w
| eff_init_failed (e : js_error) :
    import_settles B (log w ++ [EImport "pg"]) = Rejected e →
    effect B config w (with_log (log w ++ [EImport "pg"]) w)
| eff_init (m : pg_module) :
    import_settles B (log w ++ [EImport "pg"]) = Fulfilled m →
    effect B config w
      (with_pool (Some (pools_created (log w)))
         (with_log (log w ++ [EImport "pg"; ENewPool (pool_options config)]) w))
| eff_destroy (p : pool_ref) :
    pool w = Some p →
    effect B config w (with_pool None (with_log (log w ++ [EPoolEnd p]) w))
| eff_connect (p : pool_ref) :
    pool w = Some p →
    effect B config w (with_log (log w ++ [EPoolConnect p]) w)
| eff_first (p : pool_ref) (c : client) :
    pool w = Some p →
    connect_settles B (log w ++ [EPoolConnect p]) = Fulfilled c →
    connections w !! c = None →
    effect B config w
      (with_connections (<[c := length (wrappers w)]> (connections w))
         (with_wrappers (wrappers w ++ [wrapper_of c])
            (with_log
               (log w ++
                  EPoolConnect p ::
                  match onCreateConnection (cfg_pool config) with
                  | Some _ => [EOnCreateConnection (length (wrappers w))]
                  | None => []
                  end) w)))
| eff_release (k : conn_ref) (this : PostgresConnection) :
    wrappers w !! k = Some this →
    effect B config w (with_log (log w ++ [EClientRelease (conn_client this)]) w)
| eff_query_failed (this : PostgresConnection) (q : CompiledQuery) :
    effect B config w (with_log (log w ++ [query_event this q]) w)
| eff_query (this : PostgresConnection) (q : CompiledQuery) (ans : pg_answer) :
    effect B config w
      (with_objects
         (objects w ++
            [result_object {| command := ans_command ans;
                              rowCount := ans_rowCount ans;
                              rows := length (arrays w) |}])
         (with_arrays (arrays w ++ [ans_rows ans])
            (with_log (log w ++ [query_event this q]) w)))
| eff_write (o : obj_ref) (ob ob' : js_object) :
    objects w !! o = Some ob →
    frozen ob = false →
    effect B config w (with_objects (<[o := ob']> (objects w)) w)
| eff_push (a : arr_ref) (r : row) :
    effect B config w
      (with_arrays (alter (fun l => l ++ [r]) a (arrays w)) w).

(** What holds of the pool handle and of the pools built so far. *)
Record pool_ok (w : world) : Prop := {
  held_pool_is_live :
    ∀ p, pool w = Some p →
         (p < pools_created (log w))%nat ∧ end_calls_on p (log w) = 0;
  ended_at_most_once : ∀ p, (end_calls_on p (log w) ≤ 1)%nat;
  only_built_pools_end :
    ∀ p, (pools_created (log w) ≤ p)%nat → end_calls_on p (log w) = 0;
}.


(** * Facts *)

(** ** Bookkeeping *)

Lemma spread_into_app (acc xs : list js_value) : spread_into acc xs = acc ++ xs.
Proof.
  revert acc. induction xs as [|x xs IH]; intros acc; simpl.
  - by rewrite app_nil_r.
  - rewrite IH. by rewrite <- app_assoc.
Qed.

Lemma spread_same (xs : list js_value) : spread xs = xs.
Proof. unfold spread. by rewrite spread_into_app. Qed.

Lemma hook_calls_app (k : conn_ref) (l1 l2 : list event) :
  hook_calls k (l1 ++ l2) = hook_calls k l1 + hook_calls k l2.
Proof.
  induction l1 as [|e l1 IH]; simpl; [done|].
  destruct e; simpl; rewrite IH; lia.
Qed.

Lemma pools_created_app (l1 l2 : list event) :
  pools_created (l1 ++ l2) = pools_created l1 + pools_created l2.
Proof.
  induction l1 as [|e l1 IH]; simpl; [done|].
  destruct e; simpl; rewrite IH; lia.
Qed.

Lemma end_calls_app (l1 l2 : list event) :
  end_calls (l1 ++ l2) = end_calls l1 + end_calls l2.
Proof.
  induction l1 as [|e l1 IH]; simpl; [done|].
  destruct e; simpl; rewrite IH; lia.
Qed.

Lemma import_calls_app (l1 l2 : list event) :
  import_calls (l1 ++ l2) = import_calls l1 + import_calls l2.
Proof.
  induction l1 as [|e l1 IH]; simpl; [done|].
  destruct e; simpl; rewrite IH; lia.
Qed.

Lemma query_calls_app (l1 l2 : list event) :
  query_calls (l1 ++ l2) = query_calls l1 + query_calls l2.
Proof.
  induction l1 as [|e l1 IH]; simpl; [done|].
  destruct e; simpl; rewrite IH; lia.
Qed.

(** ** What each method does, call by call *)

Ltac js_step :=
  cbv [bind ret throw await try_catch emit history get_pool set_pool pool_member
       connections_get connections_set new_PostgresConnection new_object
       new_array freeze dynamic_import new_Pool Pool_end Pool_connect
       Client_query Client_release call_hook PRIVATE_RELEASE_METHOD].

Section Methods.

Context (B : backend) (config : DriverConfig).

Lemma importPg_settles (w : world) :
  importPg B w =
    (match import_settles B (log w ++ [EImport "pg"]) with
     | Fulfilled m => Normal m
     | Rejected e => Throw e
     end,
     with_log (log w ++ [EImport "pg"]) w).
Proof.
  unfold importPg. js_step. simpl.
  by destruct (import_settles B _).
Qed.

Lemma initImpl_resolved (w : world) (m : pg_module) :
  import_settles B (log w ++ [EImport "pg"]) = Fulfilled m →
  initImpl B config w =
    (Normal tt,
     with_pool (Some (pools_created (log w)))
       (with_log (log w ++ [EImport "pg"; ENewPool (pool_options config)]) w)).
Proof.
  intros Hm. unfold initImpl, bind at 1. rewrite importPg_settles, Hm.
  js_step. simpl. rewrite pools_created_app, <- app_assoc. simpl.
  by rewrite Nat.add_0_r.
Qed.

Lemma initImpl_rejected (w : world) (e : js_error) :
  import_settles B (log w ++ [EImport "pg"]) = Rejected e →
  initImpl B config w = (Throw e, with_log (log w ++ [EImport "pg"]) w).
Proof.
  intros He. unfold initImpl, bind. by rewrite importPg_settles, He.
Qed.

Lemma destroyImpl_no_pool (w : world) :
  pool w = None → destroyImpl B w = (Normal tt, w).
Proof. intros Hp. unfold destroyImpl. js_step. by rewrite Hp. Qed.

Lemma destroyImpl_pool (w : world) (p : pool_ref) :
  pool w = Some p →
  destroyImpl B w =
    (match end_settles B (log w ++ [EPoolEnd p]) with
     | Fulfilled _ => Normal tt
     | Rejected e => Throw e
     end,
     with_pool None (with_log (log w ++ [EPoolEnd p]) w)).
Proof.
  intros Hp. unfold destroyImpl. js_step. rewrite Hp. simpl.
  by destruct (end_settles B _) as [[]|].
Qed.

Lemma acquire_no_pool (w : world) :
  pool w = None →
  acquireConnectionImpl B config w = (Throw (null_property_error "connect"), w).
Proof. intros Hp. unfold acquireConnectionImpl. js_step. by rewrite Hp. Qed.

Lemma acquire_refused (w : world) (p : pool_ref) (e : js_error) :
  pool w = Some p →
  connect_settles B (log w ++ [EPoolConnect p]) = Rejected e →
  acquireConnectionImpl B config w =
    (Throw e, with_log (log w ++ [EPoolConnect p]) w).
Proof.
  intros Hp Hc. unfold acquireConnectionImpl. js_step. rewrite Hp. simpl.
  by rewrite Hc.
Qed.

Lemma acquire_cached (w : world) (p : pool_ref) (c : client) (k : conn_ref) :
  pool w = Some p →
  connect_settles B (log w ++ [EPoolConnect p]) = Fulfilled c →
  connections w !! c = Some k →
  acquireConnectionImpl B config w =
    (Normal k, with_log (log w ++ [EPoolConnect p]) w).
Proof.
  intros Hp Hc Hk. unfold acquireConnectionImpl. js_step. rewrite Hp. simpl.
  rewrite Hc. simpl. by rewrite Hk.
Qed.

(** The world once a wrapper for [c] has been built and cached. *)
Lemma acquire_first_no_hook (w : world) (p : pool_ref) (c : client) :
  pool w = Some p →
  connect_settles B (log w ++ [EPoolConnect p]) = Fulfilled c →
  connections w !! c = None →
  onCreateConnection (cfg_pool config) = None →
  acquireConnectionImpl B config w =
    (Normal (length (wrappers w)),
     with_connections (<[c := length (wrappers w)]> (connections w))
       (with_wrappers (wrappers w ++ [{| conn_client := c |}])
          (with_log (log w ++ [EPoolConnect p]) w))).
Proof.
  intros Hp Hc Hk Hh. unfold acquireConnectionImpl. js_step. rewrite Hp. simpl.
  rewrite Hc. simpl. rewrite Hk, Hh. done.
Qed.

Lemma acquire_first_hook (w : world) (p : pool_ref) (c : client)
    (hook : list event → promise unit) :
  pool w = Some p →
  connect_settles B (log w ++ [EPoolConnect p]) = Fulfilled c →
  connections w !! c = None →
  onCreateConnection (cfg_pool config) = Some hook →
  acquireConnectionImpl B config w =
    (match hook (log w ++ [EPoolConnect p; EOnCreateConnection (length (wrappers w))]) with
     | Fulfilled _ => Normal (length (wrappers w))
     | Rejected e => Throw e
     end,
     with_connections (<[c := length (wrappers w)]> (connections w))
       (with_wrappers (wrappers w ++ [{| conn_client := c |}])
          (with_log (log w ++ [EPoolConnect p;
                               EOnCreateConnection (length (wrappers w))]) w))).
Proof.
  intros Hp Hc Hk Hh. unfold acquireConnectionImpl. js_step. rewrite Hp. simpl.
  rewrite Hc. simpl. rewrite Hk, Hh. simpl. rewrite <- app_assoc. simpl.
  by destruct (hook _) as [[]|].
Qed.

End Methods.

Section Queries.

Context (B : backend).

Lemma executeQuery_rejected (this : PostgresConnection) (q : CompiledQuery)
    (w : world) (e : js_error) :
  query_settles B (log w ++ [query_event this q]) = Rejected e →
  executeQuery B this q w = (Throw e, with_log (log w ++ [query_event this q]) w).
Proof.
  intros He. unfold executeQuery, query_event in *. rewrite spread_same.
  js_step. simpl. by rewrite He.
Qed.

Lemma executeQuery_fulfilled (this : PostgresConnection) (q : CompiledQuery)
    (w : world) (ans : pg_answer) :
  query_settles B (log w ++ [query_event this q]) = Fulfilled ans →
  executeQuery B this q w =
    (Normal (length (objects w)),
     with_objects
       (objects w ++
          [{| props := list_to_map
                         (result_fields {| command := ans_command ans;
                                           rowCount := ans_rowCount ans;
                                           rows := length (arrays w) |});
              frozen := true |}])
       (with_arrays (arrays w ++ [ans_rows ans])
          (with_log (log w ++ [query_event this q]) w))).
Proof.
  intros Ha. unfold executeQuery, query_event in *. rewrite spread_same.
  js_step. simpl. rewrite Ha. simpl.
  unfold with_objects. simpl. f_equal. f_equal.
  rewrite alter_app_r_alt by lia. by rewrite Nat.sub_diag.
Qed.

End Queries.

(** ** The cache along any sequence of calls *)

Section Runs.

Context (B : backend) (config : DriverConfig).

Lemma exec_cache_step (o : op) (w : world) :
  cache_step config w (exec B config o w).
Proof.
  destruct o as [| | |k|k q|m]; simpl.
  - destruct (import_settles B (log w ++ [EImport "pg"])) as [m|e] eqn:Hi.
    + rewrite (initImpl_resolved B config w m Hi).
      by apply cache_same with (d := [EImport "pg"; ENewPool (pool_options config)]).
    + rewrite (initImpl_rejected B config w e Hi).
      by apply cache_same with (d := [EImport "pg"]).
  - destruct (pool w) as [p|] eqn:Hp.
    + rewrite (destroyImpl_pool B w p Hp).
      by apply cache_same with (d := [EPoolEnd p]).
    + rewrite (destroyImpl_no_pool B w Hp).
      apply cache_same with (d := []); try done. by rewrite app_nil_r.
  - destruct (pool w) as [p|] eqn:Hp.
    2:{ rewrite (acquire_no_pool B config w Hp).
        apply cache_same with (d := []); try done. by rewrite app_nil_r. }
    destruct (connect_settles B (log w ++ [EPoolConnect p])) as [c|e] eqn:Hc.
    2:{ rewrite (acquire_refused B config w p e Hp Hc).
        by apply cache_same with (d := [EPoolConnect p]). }
    destruct (connections w !! c) as [k|] eqn:Hk.
    { rewrite (acquire_cached B config w p c k Hp Hc Hk).
      by apply cache_same with (d := [EPoolConnect p]). }
    destruct (onCreateConnection (cfg_pool config)) as [hook|] eqn:Hh.
    + rewrite (acquire_first_hook B config w p c hook Hp Hc Hk Hh).
      apply cache_grow
        with (d := [EPoolConnect p; EOnCreateConnection (length (wrappers w))])
             (c := c); try done.
      intros k. unfold hook_quota. rewrite Hh. simpl.
      destruct (Nat.eqb _ k); lia.
    + rewrite (acquire_first_no_hook B config w p c Hp Hc Hk Hh).
      apply cache_grow with (d := [EPoolConnect p]) (c := c); try done.
      intros k. unfold hook_quota. rewrite Hh. simpl.
      by destruct (Nat.eqb _ k).
  - unfold releaseConnectionImpl.
    destruct (wrappers w !! k) as [pc|].
    + js_step. simpl.
      destruct (release_completes B _) as [[]|e];
        by apply cache_same with (d := [EClientRelease (conn_client pc)]).
    + apply cache_same with (d := []); try done. simpl. by rewrite app_nil_r.
  - destruct (wrappers w !! k) as [this|].
    2:{ apply cache_same with (d := []); try done. by rewrite app_nil_r. }
    destruct (query_settles B (log w ++ [query_event this q])) as [ans|e] eqn:Hq.
    + rewrite (executeQuery_fulfilled B this q w ans Hq).
      by apply cache_same with (d := [query_event this q]).
    + rewrite (executeQuery_rejected B this q w e Hq).
      by apply cache_same with (d := [query_event this q]).
  - apply cache_same with (d := []); try done;
      destruct m; simpl; unfold write_object, throw;
      repeat (match goal with
              | |- context [match ?x with _ => _ end] => destruct x
              end; simpl); try done; by rewrite app_nil_r.
Qed.

Lemma cache_step_keeps (w w' : world) (c : client) (k : conn_ref) :
  cache_step config w w' →
  connections w !! c = Some k → connections w' !! c = Some k.
Proof.
  intros [d Hc _ _ _ | d c0 Hnone Hc _ _ _] Hk; rewrite Hc; [done|].
  rewrite lookup_insert_ne; [done|]. intros ->. congruence.
Qed.

Lemma cache_step_ok (w w' : world) :
  cache_ok config w → cache_step config w w' → cache_ok config w'.
Proof.
  intros [Hcw Hwc Hh] [d Hc Hw Hl Hd | d c0 Hnone Hc Hw Hl Hd].
  - split; rewrite ?Hc, ?Hw, ?Hl; try done.
    intros k. by rewrite hook_calls_app, Hd, Hh, Nat.add_0_r.
  - split; rewrite ?Hc, ?Hw, ?Hl.
    + intros c k Hk. destruct (decide (c0 = c)) as [->|Hne].
      * rewrite lookup_insert_eq in Hk. injection Hk as <-.
        by rewrite lookup_app_r, Nat.sub_diag by lia.
      * rewrite lookup_insert_ne in Hk by done.
        by apply lookup_app_l_Some, Hcw.
    + intros k c Hk. apply lookup_app_Some in Hk as [Hk | [Hlen Hk]].
      * assert (c0 ≠ c) as Hne.
        { intros ->. apply Hwc in Hk. congruence. }
        rewrite lookup_insert_ne by done. by apply Hwc.
      * destruct (k - length (wrappers w)) as [|n] eqn:Hn; simpl in Hk; [|done].
        injection Hk as <-. rewrite lookup_insert_eq. f_equal. lia.
    + intros k. rewrite hook_calls_app, Hd, Hh, length_app. simpl.
      destruct (Nat.eqb_spec (length (wrappers w)) k);
        repeat case_decide; lia.
Qed.

Lemma new_PostgresDriver_ok : cache_ok config new_PostgresDriver.
Proof.
  split; simpl; done.
Qed.

Lemma run_cache_ok (ops : list op) (w : world) :
  cache_ok config w → cache_ok config (run B config ops w).
Proof.
  revert w. induction ops as [|o ops IH]; intros w Hw; [done|].
  simpl. apply IH. eapply cache_step_ok; [done|]. apply exec_cache_step.
Qed.

Lemma run_keeps (ops : list op) (w : world) (c : client) (k : conn_ref) :
  connections w !! c = Some k →
  connections (run B config ops w) !! c = Some k.
Proof.
  revert w. induction ops as [|o ops IH]; intros w Hk; [done|].
  simpl. apply IH. eapply cache_step_keeps; [|done]. apply exec_cache_step.
Qed.

End Runs.

(** ** The pool handle and the frozen objects along any sequence of calls *)

Section Lifecycle.

Context (B : backend) (config : DriverConfig).

Lemma release_keeps_driver (k : conn_ref) (w : world) :
  let w' := snd (releaseConnectionImpl B k w) in
  pool w' = pool w ∧ objects w' = objects w.
Proof.
  unfold releaseConnectionImpl. destruct (wrappers w !! k) as [pc|]; [|done].
  js_step. simpl. by destruct (release_completes B _) as [[]|e].
Qed.

Lemma executeQuery_keeps_pool (this : PostgresConnection) (q : CompiledQuery)
    (w : world) :
  pool (snd (executeQuery B this q w)) = pool w.
Proof.
  destruct (query_settles B (log w ++ [query_event this q])) as [ans|e] eqn:Hq.
  - by rewrite (executeQuery_fulfilled B this q w ans Hq).
  - by rewrite (executeQuery_rejected B this q w e Hq).
Qed.

Lemma mutate_keeps_pool (m : mutation) (w : world) :
  pool (snd (mutate m w)) = pool w.
Proof.
  destruct m; simpl; try done; unfold write_object, throw;
    destruct (objects w !! o) as [ob|]; try done; by destruct (frozen ob).
Qed.

Lemma exec_keeps_pool_unset (o : op) (w : world) :
  is_init o = false → pool w = None → pool (exec B config o w) = None.
Proof.
  intros Ho Hp. destruct o as [| | |k|k q|m]; simpl.
  - done.
  - by rewrite (destroyImpl_no_pool B w Hp).
  - by rewrite (acquire_no_pool B config w Hp).
  - by rewrite (proj1 (release_keeps_driver k w)).
  - destruct (wrappers w !! k); [|done]. by rewrite executeQuery_keeps_pool.
  - by rewrite mutate_keeps_pool.
Qed.

Lemma run_keeps_pool_unset (ops : list op) (w : world) :
  no_init ops = true → pool w = None → pool (run B config ops w) = None.
Proof.
  revert w. induction ops as [|o ops IH]; intros w Hops Hp; [done|].
  apply andb_true_iff in Hops as [Ho Hops].
  simpl. apply IH; [done|]. apply exec_keeps_pool_unset; [|done].
  by destruct (is_init o).
Qed.

Lemma destroyImpl_unsets_pool (w : world) : pool (snd (destroyImpl B w)) = None.
Proof.
  destruct (pool w) as [p|] eqn:Hp.
  - by rewrite (destroyImpl_pool B w p Hp).
  - by rewrite (destroyImpl_no_pool B w Hp).
Qed.



End Lifecycle.

(** * The claims *)

(** ** The identity cache *)

(** The first acquisition of a client, in any world: what it returns and what
    it leaves behind. *)
Lemma first_acquisition (B : backend) (config : DriverConfig) (w : world)
    (c : client) :
  connections w !! c = None →
  hands_out B w c →
  let first := acquireConnectionImpl B config w in
  let k := length (wrappers w) in
  connections (snd first) !! c = Some k ∧
  wrappers (snd first) = wrappers w ++ [wrapper_of c] ∧
  fst first =
    match onCreateConnection (cfg_pool config) with
    | Some hook =>
        match hook (log (snd first)) with
        | Fulfilled _ => Normal k
        | Rejected e => Throw e
        end
    | None => Normal k
    end.
Proof.
  intros Hnone (p & Hp & Hc). simpl.
  destruct (onCreateConnection (cfg_pool config)) as [hook|] eqn:Hh.
  - rewrite (acquire_first_hook B config w p c hook Hp Hc Hnone Hh). simpl.
    by rewrite lookup_insert_eq.
  - rewrite (acquire_first_no_hook B config w p c Hp Hc Hnone Hh). simpl.
    by rewrite lookup_insert_eq.
Qed.

(** A later acquisition of a client whose wrapper is cached. *)
Lemma later_acquisition (B : backend) (config : DriverConfig) (w : world)
    (c : client) (k : conn_ref) :
  connections w !! c = Some k →
  hands_out B w c →
  ∃ p, pool w = Some p ∧
       acquireConnectionImpl B config w =
         (Normal k, with_log (log w ++ [EPoolConnect p]) w).
Proof.
  intros Hk (p & Hp & Hc). exists p. split; [done|].
  by apply acquire_cached with (c := c).
Qed.

Lemma acquire_cache_ok (B : backend) (config : DriverConfig) (w : world) :
  cache_ok config w → cache_ok config (snd (acquireConnectionImpl B config w)).
Proof.
  intros Hok. eapply cache_step_ok; [done|].
  apply (exec_cache_step B config OpAcquire w).
Qed.

(** C1.  Take any calls [before], then an acquisition in which the pool hands
    out a client [c] that has no wrapper yet, then any calls [between], then
    an acquisition in which the pool hands out [c] again.  The first
    acquisition builds a wrapper [k] around [c]; if there is a hook it is
    called with [k] and the acquisition completes as the hook's promise
    settles, so the hook is awaited before [k] is returned.  The later
    acquisition returns the very same [k].  At the end the hook has been
    called with [k] as often as there is a hook — once, and not at all
    before the first acquisition — and [k] is the only wrapper ever built
    around [c]. *)
Theorem same_wrapper_and_hook_once (B : backend) (config : DriverConfig)
    (before between : list op) (c : client) :
  let w0 := run B config before new_PostgresDriver in
  let first := acquireConnectionImpl B config w0 in
  let w2 := run B config between (snd first) in
  let again := acquireConnectionImpl B config w2 in
  let k := length (wrappers w0) in
  connections w0 !! c = None →
  hands_out B w0 c →
  hands_out B w2 c →
  wrappers (snd first) !! k = Some (wrapper_of c) ∧
  fst first =
    match onCreateConnection (cfg_pool config) with
    | Some hook =>
        match hook (log (snd first)) with
        | Fulfilled _ => Normal k
        | Rejected e => Throw e
        end
    | None => Normal k
    end ∧
  hook_calls k (log w0) = 0 ∧
  hook_calls k (log (snd first)) = hook_quota config ∧
  fst again = Normal k ∧
  hook_calls k (log (snd again)) = hook_quota config ∧
  (∀ k', wrappers (snd again) !! k' = Some (wrapper_of c) → k' = k).
Proof.
  intros w0 first w2 again k Hnone Hout0 Hout2.
  assert (cache_ok config w0) as Hok0
    by apply run_cache_ok, new_PostgresDriver_ok.
  destruct (first_acquisition B config w0 c Hnone Hout0) as (Hk1 & Hw1 & Hr1).
  fold first k in Hk1, Hw1, Hr1.
  assert (cache_ok config (snd first)) as Hok1 by by apply acquire_cache_ok.
  assert (connections w2 !! c = Some k) as Hk2 by by apply run_keeps.
  assert (cache_ok config w2) as Hok2 by by apply run_cache_ok.
  destruct (later_acquisition B config w2 c k Hk2 Hout2) as (p2 & Hp2 & Hagain).
  fold again in Hagain.
  assert (cache_ok config (snd again)) as Hok3 by by apply acquire_cache_ok.
  assert (connections (snd again) !! c = Some k) as Hk3 by by rewrite Hagain.
  repeat split.
  - by apply (cached_wraps _ _ Hok1).
  - done.
  - rewrite (hooked_once _ _ Hok0). case_decide; [lia|done].
  - rewrite (hooked_once _ _ Hok1), Hw1, length_app. simpl.
    case_decide; [done|lia].
  - by rewrite Hagain.
  - rewrite (hooked_once _ _ Hok3).
    apply (cached_wraps _ _ Hok3), lookup_lt_Some in Hk3.
    case_decide; [done|lia].
  - intros k' Hk'. apply (wrapper_cached _ _ Hok3) in Hk'. congruence.
Qed.

Lemma same_wrapper_and_hook_once_witness :
  connections (run Scenario.ok Scenario.hooked [OpInit] new_PostgresDriver) !! 7
    = None ∧
  hands_out Scenario.ok
    (run Scenario.ok Scenario.hooked [OpInit] new_PostgresDriver) 7 ∧
  hands_out Scenario.ok
    (run Scenario.ok Scenario.hooked [OpInit; OpAcquire; OpRelease 0]
       new_PostgresDriver) 7 ∧
  fst (acquireConnectionImpl Scenario.ok Scenario.hooked
         (run Scenario.ok Scenario.hooked [OpInit] new_PostgresDriver)) =
    Normal 0 ∧
  fst (acquireConnectionImpl Scenario.ok Scenario.hooked
         (run Scenario.ok Scenario.hooked [OpInit; OpAcquire; OpRelease 0]
            new_PostgresDriver)) = Normal 0 ∧
  hook_calls 0
    (log (run Scenario.ok Scenario.hooked
            [OpInit; OpAcquire; OpRelease 0; OpAcquire] new_PostgresDriver)) = 1.
Proof.
  assert (connections
            (run Scenario.ok Scenario.hooked [OpInit] new_PostgresDriver) !! 7
          = None) as Hnone by (vm_compute; reflexivity).
  assert (hands_out Scenario.ok
            (run Scenario.ok Scenario.hooked [OpInit] new_PostgresDriver) 7)
    as Hout0 by (exists 0; split; vm_compute; reflexivity).
  assert (hands_out Scenario.ok
            (run Scenario.ok Scenario.hooked [OpInit; OpAcquire; OpRelease 0]
               new_PostgresDriver) 7)
    as Hout2 by (exists 0; split; vm_compute; reflexivity).
  destruct (same_wrapper_and_hook_once Scenario.ok Scenario.hooked
              [OpInit] [OpRelease 0] 7 Hnone Hout0 Hout2)
    as (_ & Hfirst & _ & _ & Hsame & Honce & _).
  split; [exact Hnone|]. split; [exact Hout0|]. split; [exact Hout2|].
  split; [exact Hfirst|]. split; [exact Hsame | exact Honce].
Defined.

(** C10.  Take any calls [before], then an acquisition in which the pool
    hands out a client [c] that has no wrapper yet and in which the hook's
    promise rejects with [e].  That acquisition fails with [e]; the hook ran
    in a world whose cache already held the new wrapper [k] for [c], and the
    entry is still there after the failure.  Whatever is called in between, a
    later acquisition in which the pool hands out [c] again returns [k] and
    calls no hook: the hook has been called with [k] once, on the failed
    acquisition, and is not called again. *)
Theorem failed_hook_is_not_retried (B : backend) (config : DriverConfig)
    (before between : list op) (c : client) (p : pool_ref)
    (hook : list event → promise unit) (e : js_error) :
  let w0 := run B config before new_PostgresDriver in
  let k := length (wrappers w0) in
  let first := acquireConnectionImpl B config w0 in
  let w2 := run B config between (snd first) in
  let again := acquireConnectionImpl B config w2 in
  connections w0 !! c = None →
  pool w0 = Some p →
  connect_settles B (log w0 ++ [EPoolConnect p]) = Fulfilled c →
  onCreateConnection (cfg_pool config) = Some hook →
  hook (log w0 ++ [EPoolConnect p; EOnCreateConnection k]) = Rejected e →
  hands_out B w2 c →
  fst first = Throw e ∧
  (∃ cached, connections cached !! c = Some k ∧
             first = (h <- call_hook hook k ;; await h ;;; ret k) cached) ∧
  connections (snd first) !! c = Some k ∧
  fst again = Normal k ∧
  (∀ k', hook_calls k' (log (snd again)) = hook_calls k' (log w2)) ∧
  hook_calls k (log (snd again)) = 1.
Proof.
  intros w0 k first w2 again Hnone Hp Hc Hh He Hout2.
  assert (∃ cached, connections cached !! c = Some k ∧
                    first = (h <- call_hook hook k ;; await h ;;; ret k) cached)
    as Hcached.
  { exists (with_connections (<[c := k]> (connections w0))
              (with_wrappers (wrappers w0 ++ [wrapper_of c])
                 (with_log (log w0 ++ [EPoolConnect p]) w0))).
    split; [simpl; by rewrite lookup_insert_eq|].
    unfold first, acquireConnectionImpl. js_step. rewrite Hp. simpl.
    rewrite Hc. simpl. by rewrite Hnone, Hh. }
  assert (cache_ok config w0) as Hok0
    by apply run_cache_ok, new_PostgresDriver_ok.
  assert (first =
            (Throw e,
             with_connections (<[c := k]> (connections w0))
               (with_wrappers (wrappers w0 ++ [wrapper_of c])
                  (with_log (log w0 ++ [EPoolConnect p; EOnCreateConnection k])
                     w0)))) as Hfirst.
  { unfold first. rewrite (acquire_first_hook B config w0 p c hook Hp Hc Hnone Hh).
    fold k. by rewrite He. }
  assert (connections (snd first) !! c = Some k) as Hk1.
  { rewrite Hfirst. simpl. by rewrite lookup_insert_eq. }
  assert (cache_ok config (snd first)) as Hok1 by by apply acquire_cache_ok.
  assert (connections w2 !! c = Some k) as Hk2 by by apply run_keeps.
  assert (cache_ok config w2) as Hok2 by by apply run_cache_ok.
  destruct (later_acquisition B config w2 c k Hk2 Hout2) as (p2 & Hp2 & Hagain).
  fold again in Hagain.
  assert (∀ k', hook_calls k' (log (snd again)) = hook_calls k' (log w2)) as Hquiet.
  { intros k'. rewrite Hagain. simpl. rewrite hook_calls_app. simpl. lia. }
  split; [by rewrite Hfirst|]. split; [done|]. split; [done|].
  split; [by rewrite Hagain|]. split; [done|].
  rewrite Hquiet, (hooked_once _ _ Hok2).
  apply (cached_wraps _ _ Hok2), lookup_lt_Some in Hk2.
  unfold hook_quota. rewrite Hh. case_decide; [done|lia].
Qed.

Lemma failed_hook_is_not_retried_witness :
  connections (run Scenario.ok Scenario.failing [OpInit] new_PostgresDriver) !! 7
    = None ∧
  pool (run Scenario.ok Scenario.failing [OpInit] new_PostgresDriver) = Some 0 ∧
  hands_out Scenario.ok
    (run Scenario.ok Scenario.failing [OpInit; OpAcquire; OpRelease 0]
       new_PostgresDriver) 7 ∧
  fst (acquireConnectionImpl Scenario.ok Scenario.failing
         (run Scenario.ok Scenario.failing [OpInit] new_PostgresDriver)) =
    Throw Scenario.hook_failure ∧
  fst (acquireConnectionImpl Scenario.ok Scenario.failing
         (run Scenario.ok Scenario.failing [OpInit; OpAcquire; OpRelease 0]
            new_PostgresDriver)) = Normal 0 ∧
  hook_calls 0
    (log (run Scenario.ok Scenario.failing
            [OpInit; OpAcquire; OpRelease 0; OpAcquire] new_PostgresDriver)) = 1.
Proof.
  assert (connections
            (run Scenario.ok Scenario.failing [OpInit] new_PostgresDriver) !! 7
          = None) as Hnone by (vm_compute; reflexivity).
  assert (pool (run Scenario.ok Scenario.failing [OpInit] new_PostgresDriver)
          = Some 0) as Hpool by reflexivity.
  assert (hands_out Scenario.ok
            (run Scenario.ok Scenario.failing [OpInit; OpAcquire; OpRelease 0]
               new_PostgresDriver) 7)
    as Hout2 by (exists 0; split; vm_compute; reflexivity).
  destruct (failed_hook_is_not_retried Scenario.ok Scenario.failing
              [OpInit] [OpRelease 0] 7 0 Scenario.failing_hook
              Scenario.hook_failure Hnone Hpool eq_refl eq_refl eq_refl Hout2)
    as (Hfail & _ & _ & Hsame & _ & Honce).
  split; [exact Hnone|]. split; [exact Hpool|]. split; [exact Hout2|].
  split; [exact Hfail|]. split; [exact Hsame | exact Honce].
Defined.

(** ** The lifecycle *)

(** C6.  On a driver on which [initImpl] was never called — whatever else was
    called on it — [destroyImpl] returns normally and changes nothing.  And
    after a [destroyImpl] in any world, a second [destroyImpl] returns
    normally and changes nothing.  The world includes the log of calls made
    to the pool, so in both cases [pool.end()] is not called. *)
Theorem destroy_without_pool_is_a_no_op (B : backend) (config : DriverConfig)
    (ops : list op) (w : world) :
  no_init ops = true →
  let never := run B config ops new_PostgresDriver in
  let once := snd (destroyImpl B w) in
  destroyImpl B never = (Normal tt, never) ∧
  destroyImpl B once = (Normal tt, once) ∧
  end_calls (log (snd (destroyImpl B never))) = end_calls (log never) ∧
  end_calls (log (snd (destroyImpl B once))) = end_calls (log once).
Proof.
  intros Hops never once.
  assert (destroyImpl B never = (Normal tt, never)) as Hnever.
  { apply destroyImpl_no_pool. by apply run_keeps_pool_unset. }
  assert (destroyImpl B once = (Normal tt, once)) as Honce.
  { apply destroyImpl_no_pool, destroyImpl_unsets_pool. }
  by rewrite Hnever, Honce.
Qed.

Lemma destroy_without_pool_is_a_no_op_witness :
  no_init [OpAcquire; OpDestroy] = true ∧
  destroyImpl Scenario.ok
    (run Scenario.ok Scenario.plain
       [OpAcquire; OpDestroy] new_PostgresDriver) =
    (Normal tt,
     run Scenario.ok Scenario.plain
       [OpAcquire; OpDestroy] new_PostgresDriver) ∧
  destroyImpl Scenario.ok
    (snd (destroyImpl Scenario.ok Scenario.initialised)) =
    (Normal tt,
     snd (destroyImpl Scenario.ok Scenario.initialised)).
Proof.
  split; [reflexivity|].
  destruct (destroy_without_pool_is_a_no_op Scenario.ok
              Scenario.plain [OpAcquire; OpDestroy] Scenario.initialised)
    as (Hnever & Honce & _); [reflexivity|].
  split; [exact Hnever | exact Honce].
Defined.

(** C7, as the claim has it, fails: on a driver on which [initImpl] has
    succeeded, a second [initImpl] is not refused with an
    [InvalidStateError], and it does build a second pool. *)
Lemma second_init_is_not_refused :
  fst (initImpl Scenario.ok Scenario.plain
         new_PostgresDriver) = Normal tt ∧
  ¬ (fails_with "InvalidStateError"
       (fst (initImpl Scenario.ok Scenario.plain
               Scenario.initialised)) ∧
     pools_created
       (log (snd (initImpl Scenario.ok
                    Scenario.plain Scenario.initialised))) =
     pools_created (log Scenario.initialised)).
Proof.
  split; [reflexivity|].
  intros [(e & He & _) _]. vm_compute in He. discriminate He.
Qed.

(** C7, amended.  [initImpl] has no guard.  When it has succeeded in any
    world and [pg] resolves again, a second [initImpl] succeeds too: it
    builds one more pool from the same configuration and puts it in the place
    of the first, on which [pool.end()] is not called. *)
Theorem second_init_builds_a_second_pool (B : backend) (config : DriverConfig)
    (w : world) (m1 m2 : pg_module) :
  let first := initImpl B config w in
  let second := initImpl B config (snd first) in
  import_settles B (log w ++ [EImport "pg"]) = Fulfilled m1 →
  import_settles B (log (snd first) ++ [EImport "pg"]) = Fulfilled m2 →
  fst first = Normal tt ∧
  fst second = Normal tt ∧
  pools_created (log (snd second)) = S (pools_created (log (snd first))) ∧
  pool (snd first) = Some (pools_created (log w)) ∧
  pool (snd second) = Some (S (pools_created (log w))) ∧
  log (snd second) =
    log (snd first) ++ [EImport "pg"; ENewPool (pool_options config)].
Proof.
  intros first second H1 H2.
  assert (first =
            (Normal tt,
             with_pool (Some (pools_created (log w)))
               (with_log (log w ++ [EImport "pg"; ENewPool (pool_options config)])
                  w))) as Hfirst
    by by apply initImpl_resolved with (m := m1).
  assert (second =
            (Normal tt,
             with_pool (Some (pools_created (log (snd first))))
               (with_log (log (snd first) ++
                            [EImport "pg"; ENewPool (pool_options config)])
                  (snd first)))) as Hsecond
    by by apply initImpl_resolved with (m := m2).
  rewrite Hsecond. simpl. rewrite Hfirst. simpl.
  rewrite !pools_created_app. simpl. repeat split; try done.
  - lia.
  - f_equal. lia.
Qed.

Lemma second_init_builds_a_second_pool_witness :
  import_settles Scenario.ok (log new_PostgresDriver ++ [EImport "pg"]) =
    Fulfilled PgModule ∧
  import_settles Scenario.ok (log Scenario.initialised ++ [EImport "pg"]) =
    Fulfilled PgModule ∧
  fst (initImpl Scenario.ok Scenario.plain Scenario.initialised) = Normal tt ∧
  pool Scenario.initialised = Some 0 ∧
  pool (snd (initImpl Scenario.ok Scenario.plain Scenario.initialised)) = Some 1.
Proof.
  split; [reflexivity|]. split; [reflexivity|].
  destruct (second_init_builds_a_second_pool Scenario.ok Scenario.plain
              new_PostgresDriver PgModule PgModule eq_refl eq_refl)
    as (_ & Hsecond & _ & Hp1 & Hp2 & _).
  split; [exact Hsecond | split; [exact Hp1 | exact Hp2]].
Defined.




(** ** The backend loader *)

(** Whatever [importPg] fails with is what the loader rejected with: the
    [catch] block never runs, because the [try] block hands the promise of
    [import('pg')] back without awaiting it. *)
Lemma importPg_fails_as_the_loader (B : backend) (w : world) (e : js_error) :
  fst (importPg B w) = Throw e →
  import_settles B (log w ++ [EImport "pg"]) = Rejected e.
Proof.
  rewrite importPg_settles. simpl.
  destruct (import_settles B _) as [m|e']; [done|]. by intros [= ->].
Qed.

Lemma initImpl_asks_loader_once (B : backend) (config : DriverConfig) (w : world) :
  import_calls (log (snd (initImpl B config w))) = S (import_calls (log w)).
Proof.
  destruct (import_settles B (log w ++ [EImport "pg"])) as [m|e] eqn:Hi.
  - rewrite (initImpl_resolved B config w m Hi). simpl.
    rewrite import_calls_app. simpl. lia.
  - rewrite (initImpl_rejected B config w e Hi). simpl.
    rewrite import_calls_app. simpl. lia.
Qed.

Lemma acquire_never_asks_loader (B : backend) (config : DriverConfig) (w : world) :
  import_calls (log (snd (acquireConnectionImpl B config w))) =
  import_calls (log w).
Proof.
  destruct (pool w) as [p|] eqn:Hp.
  2:{ by rewrite (acquire_no_pool B config w Hp). }
  destruct (connect_settles B (log w ++ [EPoolConnect p])) as [c|e] eqn:Hc.
  2:{ rewrite (acquire_refused B config w p e Hp Hc). simpl.
      rewrite import_calls_app. simpl. lia. }
  destruct (connections w !! c) as [k|] eqn:Hk.
  { rewrite (acquire_cached B config w p c k Hp Hc Hk). simpl.
    rewrite import_calls_app. simpl. lia. }
  destruct (onCreateConnection (cfg_pool config)) as [hook|] eqn:Hh.
  - rewrite (acquire_first_hook B config w p c hook Hp Hc Hk Hh). simpl.
    rewrite import_calls_app. simpl. lia.
  - rewrite (acquire_first_no_hook B config w p c Hp Hc Hk Hh). simpl.
    rewrite import_calls_app. simpl. lia.
Qed.

(** C3, as the claim has it, fails: without [pg] installed, [initImpl] fails
    with the loader's own error.  That is no [MissingDependencyError], and
    its message is not the one that says what to install. *)
Lemma missing_pg_is_the_loader_error :
  fst (initImpl Scenario.without_pg Scenario.plain new_PostgresDriver) =
    Throw Scenario.module_not_found ∧
  ¬ fails_with "MissingDependencyError"
      (fst (initImpl Scenario.without_pg Scenario.plain new_PostgresDriver)) ∧
  ¬ (∃ e, fst (initImpl Scenario.without_pg Scenario.plain
                 new_PostgresDriver) = Throw e ∧
          err_message e = install_message).
Proof.
  split; [reflexivity|]. split.
  - intros (e & He & Hcls). vm_compute in He. injection He as <-.
    vm_compute in Hcls. discriminate Hcls.
  - intros (e & He & Hmsg). vm_compute in He. injection He as <-.
    vm_compute in Hmsg. discriminate Hmsg.
Qed.

(** C3, amended.  When [pg] cannot be resolved, [initImpl] fails at once:
    it throws having made one call only, to the loader; it builds no pool
    and leaves the pool handle, like everything else, as it was.  Every
    [initImpl] asks the loader exactly once, and no acquisition ever asks
    it. *)
Theorem missing_pg_fails_init (B : backend) (config : DriverConfig)
    (w : world) (e : js_error) :
  import_settles B (log w ++ [EImport "pg"]) = Rejected e →
  let r := initImpl B config w in
  (∃ e', fst r = Throw e') ∧
  pool (snd r) = pool w ∧
  pools_created (log (snd r)) = pools_created (log w) ∧
  (∀ w', import_calls (log (snd (initImpl B config w'))) =
         S (import_calls (log w'))) ∧
  (∀ w', import_calls (log (snd (acquireConnectionImpl B config w'))) =
         import_calls (log w')) ∧
  snd r = with_log (log w ++ [EImport "pg"]) w.
Proof.
  intros He r. unfold r. rewrite (initImpl_rejected B config w e He). simpl.
  rewrite pools_created_app. simpl.
  split; [by eexists|]. split; [done|]. split; [lia|]. split; [|split; [|done]].
  - intros w'. apply initImpl_asks_loader_once.
  - intros w'. apply acquire_never_asks_loader.
Qed.

Lemma missing_pg_fails_init_witness :
  import_settles Scenario.without_pg (log new_PostgresDriver ++ [EImport "pg"]) =
    Rejected Scenario.module_not_found ∧
  (∃ e', fst (initImpl Scenario.without_pg Scenario.plain new_PostgresDriver) =
         Throw e') ∧
  pool (snd (initImpl Scenario.without_pg Scenario.plain new_PostgresDriver)) =
    None ∧
  pools_created
    (log (snd (initImpl Scenario.without_pg Scenario.plain new_PostgresDriver))) =
    0.
Proof.
  split; [reflexivity|].
  destruct (missing_pg_fails_init Scenario.without_pg Scenario.plain
              new_PostgresDriver Scenario.module_not_found eq_refl)
    as (Hfail & Hpool & Hnone & _).
  split; [exact Hfail | split; [exact Hpool | exact Hnone]].
Defined.

(** ** Query execution *)

Lemma is_update_or_delete_spec (cmd : string) :
  is_update_or_delete cmd = true ↔ cmd = "UPDATE" ∨ cmd = "DELETE".
Proof.
  unfold is_update_or_delete.
  rewrite orb_true_iff, !String.eqb_eq. done.
Qed.

(** C2.  When the database answers a statement, [executeQuery] returns an
    object whose [numUpdatedOrDeletedRows] is the row count of the answer
    exactly when the answer's command is [UPDATE] or [DELETE], and is
    [undefined] for every other command; whose [insertedPrimaryKey] is
    [undefined]; and whose [rows] is the array of the answer, holding the
    answer's rows in their order. *)
Theorem executeQuery_normalises_the_answer (B : backend)
    (this : PostgresConnection) (q : CompiledQuery) (w : world) (ans : pg_answer) :
  query_settles B (log w ++ [query_event this q]) = Fulfilled ans →
  ∃ r w',
    executeQuery B this q w = (Normal r, w') ∧
    (get_property r "numUpdatedOrDeletedRows" w' = VNumber (ans_rowCount ans)
     ↔ ans_command ans = "UPDATE" ∨ ans_command ans = "DELETE") ∧
    (¬ (ans_command ans = "UPDATE" ∨ ans_command ans = "DELETE") →
     get_property r "numUpdatedOrDeletedRows" w' = VUndefined) ∧
    get_property r "insertedPrimaryKey" w' = VUndefined ∧
    (∃ a, get_property r "rows" w' = VArray a ∧
          arrays w' !! a = Some (ans_rows ans)).
Proof.
  intros Ha. eexists _, _. split; [by apply executeQuery_fulfilled|].
  unfold get_property. simpl.
  rewrite !lookup_app_r, !Nat.sub_diag by lia. simpl.
  rewrite <- is_update_or_delete_spec.
  split; [split|split; [|split]].
  - rewrite lookup_insert_eq. simpl.
    destruct (is_update_or_delete (ans_command ans)); done.
  - rewrite lookup_insert_eq. simpl. by intros ->.
  - rewrite lookup_insert_eq. simpl.
    destruct (is_update_or_delete (ans_command ans)); done.
  - rewrite lookup_insert_ne, lookup_insert_eq by done. done.
  - eexists. rewrite !lookup_insert_ne, lookup_insert_eq by done. simpl.
    split; [done|]. by rewrite lookup_app_r, Nat.sub_diag by lia.
Qed.

Lemma executeQuery_normalises_the_answer_witness :
  query_settles Scenario.ok
    (log (Scenario.connected Scenario.ok) ++
       [query_event (wrapper_of 7) Scenario.insert_user]) =
    Fulfilled Scenario.updated ∧
  ∃ r w',
    executeQuery Scenario.ok (wrapper_of 7) Scenario.insert_user
      (Scenario.connected Scenario.ok) = (Normal r, w') ∧
    (get_property r "numUpdatedOrDeletedRows" w' = VNumber 3
     ↔ "UPDATE" = "UPDATE" ∨ "UPDATE" = "DELETE").
Proof.
  split; [reflexivity|].
  destruct (executeQuery_normalises_the_answer Scenario.ok (wrapper_of 7)
              Scenario.insert_user (Scenario.connected Scenario.ok)
              Scenario.updated eq_refl) as (r & w' & Hrun & Hiff & _).
  exists r, w'. split; [exact Hrun | exact Hiff].
Defined.

(** C9.  Whatever the database then answers, [executeQuery] makes exactly one
    call: [client.query] on its own client, with the statement text of the
    compiled query and, as values, the bindings of the compiled query — the
    same values in the same order, none left out and none repeated. *)
Theorem executeQuery_sends_the_bindings (B : backend)
    (this : PostgresConnection) (q : CompiledQuery) (w : world) :
  log (snd (executeQuery B this q w)) =
    log w ++ [EClientQuery (conn_client this) (sql q) (bindings q)] ∧
  spread (bindings q) = bindings q.
Proof.
  split; [|apply spread_same].
  destruct (query_settles B (log w ++ [query_event this q])) as [ans|e] eqn:Hq.
  - by rewrite (executeQuery_fulfilled B this q w ans Hq).
  - by rewrite (executeQuery_rejected B this q w e Hq).
Qed.

(** C4, as the claim has it, fails: when the database rejects a statement,
    [executeQuery] does not fail with a [QueryExecutionError] wrapping the
    database's error. *)
Lemma rejected_query_is_not_wrapped :
  query_settles Scenario.rejecting
    (log (Scenario.connected Scenario.rejecting) ++
       [query_event (wrapper_of 7) Scenario.insert_user]) =
    Rejected Scenario.unique_violation ∧
  ¬ fails_wrapping "QueryExecutionError" Scenario.unique_violation
      (fst (executeQuery Scenario.rejecting (wrapper_of 7) Scenario.insert_user
              (Scenario.connected Scenario.rejecting))).
Proof.
  split; [reflexivity|].
  intros (e & He & Hcls & _). vm_compute in He. injection He as <-.
  vm_compute in Hcls. discriminate Hcls.
Qed.

(** C4, amended.  When [client.query] rejects with [e], [executeQuery] fails
    with [e] itself, as it is: the error is neither wrapped nor replaced nor
    swallowed.  The statement has been sent once and is not sent again, and
    nothing else has changed. *)
Theorem executeQuery_rethrows_the_backend_error (B : backend)
    (this : PostgresConnection) (q : CompiledQuery) (w : world) (e : js_error) :
  query_settles B (log w ++ [query_event this q]) = Rejected e →
  executeQuery B this q w =
    (Throw e, with_log (log w ++ [query_event this q]) w) ∧
  query_calls (log (snd (executeQuery B this q w))) = S (query_calls (log w)).
Proof.
  intros He. rewrite (executeQuery_rejected B this q w e He). simpl.
  rewrite query_calls_app. simpl. split; [done|lia].
Qed.

Lemma executeQuery_rethrows_the_backend_error_witness :
  query_settles Scenario.rejecting
    (log (Scenario.connected Scenario.rejecting) ++
       [query_event (wrapper_of 7) Scenario.insert_user]) =
    Rejected Scenario.unique_violation ∧
  fst (executeQuery Scenario.rejecting (wrapper_of 7) Scenario.insert_user
         (Scenario.connected Scenario.rejecting)) =
    Throw Scenario.unique_violation.
Proof.
  split; [reflexivity|].
  destruct (executeQuery_rethrows_the_backend_error Scenario.rejecting
              (wrapper_of 7) Scenario.insert_user
              (Scenario.connected Scenario.rejecting) Scenario.unique_violation)
    as (Hrun & _); [reflexivity|].
  by rewrite Hrun.
Defined.

(** What [executeQuery] returns is a frozen object. *)
Lemma executeQuery_returns_frozen (B : backend) (this : PostgresConnection)
    (q : CompiledQuery) (w w1 : world) (r : obj_ref) :
  executeQuery B this q w = (Normal r, w1) →
  ∃ ob, objects w1 !! r = Some ob ∧ frozen ob = true.
Proof.
  destruct (query_settles B (log w ++ [query_event this q])) as [ans|e] eqn:Hq.
  - rewrite (executeQuery_fulfilled B this q w ans Hq). intros [= <- <-].
    eexists. simpl. by rewrite lookup_app_r, Nat.sub_diag by lia.
  - by rewrite (executeQuery_rejected B this q w e Hq).
Qed.





(** [Object.freeze] stops at the object it is given: the array behind [rows]
    is an object of its own, and what it holds can still be changed through
    the reference, which itself stays the same. *)
Example rows_array_is_not_frozen :
  arrays
    (run (Scenario.healthy Scenario.selected) Scenario.plain
       [OpExecute 0 Scenario.insert_user; OpMutate (ArrayPush 0 [])]
       (Scenario.connected (Scenario.healthy Scenario.selected))) !! 0 =
    Some (ans_rows Scenario.selected ++ [[]]).
Proof. reflexivity. Qed.

(** * Further properties of the driver *)

(** ** One case analysis for every call *)

Lemma exec_effect (B : backend) (config : DriverConfig) (o : op) (w : world) :
  effect B config w (exec B config o w).
Proof.
  destruct o as [| | |k|k q|m]; simpl.
  - destruct (import_settles B (log w ++ [EImport "pg"])) as [m|e] eqn:Hi.
    + rewrite (initImpl_resolved B config w m Hi). by eapply eff_init.
    + rewrite (initImpl_rejected B config w e Hi). by eapply eff_init_failed.
  - destruct (pool w) as [p|] eqn:Hp.
    + rewrite (destroyImpl_pool B w p Hp). by apply eff_destroy.
    + rewrite (destroyImpl_no_pool B w Hp). apply eff_idle.
  - destruct (pool w) as [p|] eqn:Hp.
    2:{ rewrite (acquire_no_pool B config w Hp). apply eff_idle. }
    destruct (connect_settles B (log w ++ [EPoolConnect p])) as [c|e] eqn:Hc.
    2:{ rewrite (acquire_refused B config w p e Hp Hc). by apply eff_connect. }
    destruct (connections w !! c) as [k|] eqn:Hk.
    { rewrite (acquire_cached B config w p c k Hp Hc Hk). by apply eff_connect. }
    pose proof (eff_first B config w p c Hp Hc Hk) as Heff.
    destruct (onCreateConnection (cfg_pool config)) as [hook|] eqn:Hh.
    + by rewrite (acquire_first_hook B config w p c hook Hp Hc Hk Hh).
    + by rewrite (acquire_first_no_hook B config w p c Hp Hc Hk Hh).
  - unfold releaseConnectionImpl.
    destruct (wrappers w !! k) as [this|] eqn:Hk; [|apply eff_idle].
    js_step. simpl.
    destruct (release_completes B _) as [[]|e]; by eapply eff_release.
  - destruct (wrappers w !! k) as [this|]; [|apply eff_idle].
    destruct (query_settles B (log w ++ [query_event this q])) as [ans|e] eqn:Hq.
    + rewrite (executeQuery_fulfilled B this q w ans Hq). apply eff_query.
    + rewrite (executeQuery_rejected B this q w e Hq). apply eff_query_failed.
  - destruct m as [o f v|o f|a r]; simpl; [| |apply eff_push];
      unfold write_object, throw;
      destruct (objects w !! o) as [ob|] eqn:Ho; try apply eff_idle;
      destruct (frozen ob) eqn:Hf; try apply eff_idle;
      by eapply eff_write.
Qed.

Lemma end_calls_on_app (p : pool_ref) (l1 l2 : list event) :
  end_calls_on p (l1 ++ l2) = end_calls_on p l1 + end_calls_on p l2.
Proof.
  induction l1 as [|e l1 IH]; simpl; [done|].
  destruct e; simpl; rewrite IH; lia.
Qed.

Lemma release_calls_app (l1 l2 : list event) :
  release_calls (l1 ++ l2) = release_calls l1 + release_calls l2.
Proof.
  induction l1 as [|e l1 IH]; simpl; [done|].
  destruct e; simpl; rewrite IH; lia.
Qed.

(** ** The pool handle: built by [initImpl], ended by [destroyImpl] *)

(** What a call does to the pool handle: nothing, or it is an [initImpl] that
    built a pool, or a [destroyImpl] that ended the one held. *)
Lemma effect_on_pool (B : backend) (config : DriverConfig) (w w' : world) :
  effect B config w w' →
  (pool w' = pool w ∧
   ∃ d, log w' = log w ++ d ∧ pools_created d = 0 ∧ ∀ p, end_calls_on p d = 0) ∨
  (∃ m, import_settles B (log w ++ [EImport "pg"]) = Fulfilled m ∧
        pool w' = Some (pools_created (log w)) ∧
        log w' = log w ++ [EImport "pg"; ENewPool (pool_options config)]) ∨
  (∃ p, pool w = Some p ∧ pool w' = None ∧ log w' = log w ++ [EPoolEnd p]).
Proof.
  intros [ |e He|m Hm|p Hp|p Hp|p c Hp Hc Hk|k this Hk|this q|this q ans
         |o ob ob' Ho Hf|a r].
  - left. split; [done|]. exists []. by rewrite app_nil_r.
  - left. split; [done|]. by exists [EImport "pg"].
  - right. left. by exists m.
  - right. right. by exists p.
  - left. split; [done|]. by exists [EPoolConnect p].
  - left. split; [done|]. eexists. split; [done|].
    by destruct (onCreateConnection (cfg_pool config)).
  - left. split; [done|]. by exists [EClientRelease (conn_client this)].
  - left. split; [done|]. by exists [query_event this q].
  - left. split; [done|]. by exists [query_event this q].
  - left. split; [done|]. exists []. simpl. by rewrite app_nil_r.
  - left. split; [done|]. exists []. simpl. by rewrite app_nil_r.
Qed.

Lemma effect_pool_ok (B : backend) (config : DriverConfig) (w w' : world) :
  pool_ok w → effect B config w w' → pool_ok w'.
Proof.
  intros [Hheld Hone Hbuilt] Heff.
  destruct (effect_on_pool B config w w' Heff)
    as [(Hp & d & Hl & Hd1 & Hd2) | [(m & _ & Hp & Hl) | (p & Hp & Hp' & Hl)]].
  - split; rewrite ?Hp, Hl.
    + intros p Hpp. rewrite pools_created_app, end_calls_on_app, Hd1, Hd2.
      destruct (Hheld p Hpp). lia.
    + intros p. rewrite end_calls_on_app, Hd2. specialize (Hone p). lia.
    + intros p. rewrite pools_created_app, end_calls_on_app, Hd1, Hd2.
      intros Hle. rewrite Hbuilt; lia.
  - split; rewrite ?Hp, Hl.
    + intros p [= <-]. rewrite pools_created_app, end_calls_on_app. simpl.
      rewrite Hbuilt; lia.
    + intros p. rewrite end_calls_on_app. simpl. specialize (Hone p). lia.
    + intros p. rewrite pools_created_app, end_calls_on_app. simpl.
      intros Hle. rewrite Hbuilt; lia.
  - destruct (Hheld p Hp) as [Hlt Hzero].
    split; rewrite ?Hp', Hl.
    + done.
    + intros p0. rewrite end_calls_on_app. simpl.
      destruct (Nat.eqb_spec p p0) as [<-|Hne].
      * rewrite Hzero. lia.
      * specialize (Hone p0). lia.
    + intros p0. rewrite pools_created_app, end_calls_on_app. simpl.
      intros Hle. rewrite Hbuilt by lia.
      destruct (Nat.eqb_spec p p0); lia.
Qed.

Lemma run_pool_ok (B : backend) (config : DriverConfig) (ops : list op) (w : world) :
  pool_ok w → pool_ok (run B config ops w).
Proof.
  revert w. induction ops as [|o ops IH]; intros w Hw; [done|].
  simpl. apply IH. eapply effect_pool_ok; [done|]. apply exec_effect.
Qed.

Lemma new_PostgresDriver_pool_ok : pool_ok new_PostgresDriver.
Proof. split; simpl; try done. intros p. lia. Qed.

(** X6.  After any calls on a new driver: the pool the driver holds, if any,
    is one it built and on which [pool.end()] has not been called; no pool
    has had [pool.end()] called on it twice; and [pool.end()] has only been
    called on pools the driver built. *)
Theorem no_pool_is_ended_twice (B : backend) (config : DriverConfig)
    (ops : list op) :
  let w := run B config ops new_PostgresDriver in
  (∀ p, pool w = Some p →
        (p < pools_created (log w))%nat ∧ end_calls_on p (log w) = 0) ∧
  (∀ p, (end_calls_on p (log w) ≤ 1)%nat) ∧
  (∀ p, (pools_created (log w) ≤ p)%nat → end_calls_on p (log w) = 0).
Proof.
  intros w.
  assert (pool_ok w) as [H1 H2 H3]
    by apply run_pool_ok, new_PostgresDriver_pool_ok.
  done.
Qed.

Lemma effect_without_pg (B : backend) (config : DriverConfig) (w w' : world) :
  (∀ h, ∃ e, import_settles B h = Rejected e) →
  effect B config w w' →
  pool w = None ∧ pools_created (log w) = 0 →
  pool w' = None ∧ pools_created (log w') = 0.
Proof.
  intros Hno Heff [Hp Hn].
  destruct (effect_on_pool B config w w' Heff)
    as [(Hp' & d & Hl & Hd1 & _) | [(m & Hm & _) | (p & Hp' & _)]].
  - rewrite Hp', Hl, pools_created_app. split; [done|lia].
  - destruct (Hno (log w ++ [EImport "pg"])) as [e He]. congruence.
  - congruence.
Qed.

(** X7.  If [pg] can never be resolved, then whatever is called on a new
    driver, no pool is ever built, the pool handle stays null, and an
    acquisition fails with the engine's [TypeError] for reading [connect] off
    null, changing nothing. *)
Theorem without_pg_no_pool_is_ever_built (B : backend) (config : DriverConfig)
    (ops : list op) :
  (∀ h, ∃ e, import_settles B h = Rejected e) →
  let w := run B config ops new_PostgresDriver in
  pool w = None ∧
  pools_created (log w) = 0 ∧
  acquireConnectionImpl B config w = (Throw (null_property_error "connect"), w).
Proof.
  intros Hno w.
  assert (pool w = None ∧ pools_created (log w) = 0) as [Hp Hn].
  { unfold w. generalize new_PostgresDriver,
      (conj (eq_refl : pool new_PostgresDriver = None)
            (eq_refl : pools_created (log new_PostgresDriver) = 0)).
    induction ops as [|o ops IH]; intros w0 Hw0; [done|].
    simpl. apply IH. eapply effect_without_pg; [done| |done].
    apply exec_effect. }
  repeat split; [done|done|]. by apply acquire_no_pool.
Qed.

Lemma without_pg_no_pool_is_ever_built_witness :
  (∀ h, ∃ e, import_settles Scenario.without_pg h = Rejected e) ∧
  acquireConnectionImpl Scenario.without_pg Scenario.plain
    (run Scenario.without_pg Scenario.plain [OpInit; OpAcquire; OpInit]
       new_PostgresDriver) =
    (Throw (null_property_error "connect"),
     run Scenario.without_pg Scenario.plain [OpInit; OpAcquire; OpInit]
       new_PostgresDriver).
Proof.
  assert (∀ h, ∃ e, import_settles Scenario.without_pg h = Rejected e) as Hno
    by (intros h; eexists; reflexivity).
  split; [exact Hno|].
  apply (without_pg_no_pool_is_ever_built Scenario.without_pg Scenario.plain
           [OpInit; OpAcquire; OpInit] Hno).
Defined.

Lemma effect_keeps_retired (B : backend) (config : DriverConfig) (n : pool_ref)
    (w w' : world) :
  effect B config w w' →
  (n < pools_created (log w))%nat ∧ pool w ≠ Some n →
  ((n < pools_created (log w'))%nat ∧ pool w' ≠ Some n) ∧
  end_calls_on n (log w') = end_calls_on n (log w).
Proof.
  intros Heff [Hlt Hp].
  destruct (effect_on_pool B config w w' Heff)
    as [(Hp' & d & Hl & Hd1 & Hd2) | [(m & _ & Hp' & Hl) | (p & Hp0 & Hp' & Hl)]].
  - rewrite Hp', Hl, pools_created_app, end_calls_on_app, Hd2.
    repeat split; [lia|done|lia].
  - rewrite Hp', Hl, pools_created_app, end_calls_on_app. simpl.
    repeat split; [lia| |lia]. intros [= Heq]. lia.
  - rewrite Hp', Hl, pools_created_app, end_calls_on_app. simpl.
    destruct (Nat.eqb_spec p n) as [->|Hne]; [congruence|].
    repeat split; [lia|done|lia].
Qed.

Lemma run_keeps_retired (B : backend) (config : DriverConfig) (n : pool_ref)
    (ops : list op) (w : world) :
  (n < pools_created (log w))%nat ∧ pool w ≠ Some n →
  end_calls_on n (log (run B config ops w)) = end_calls_on n (log w).
Proof.
  revert w. induction ops as [|o ops IH]; intros w Hw; [done|].
  simpl.
  destruct (effect_keeps_retired B config n w _ (exec_effect B config o w) Hw)
    as [Hw' Heq].
  by rewrite IH.
Qed.

(** X8.  After any calls on a new driver, let [initImpl] succeed twice in a
    row.  The second call puts its pool in the place of the first one, and
    whatever is called afterwards — [destroyImpl] included — [pool.end()] is
    never called on the first pool. *)
Theorem replaced_pool_is_never_ended (B : backend) (config : DriverConfig)
    (before after : list op) (m1 m2 : pg_module) :
  let w := run B config before new_PostgresDriver in
  let w1 := snd (initImpl B config w) in
  let w2 := snd (initImpl B config w1) in
  let first_pool := pools_created (log w) in
  import_settles B (log w ++ [EImport "pg"]) = Fulfilled m1 →
  import_settles B (log w1 ++ [EImport "pg"]) = Fulfilled m2 →
  pool w1 = Some first_pool ∧
  pool w2 = Some (S first_pool) ∧
  end_calls_on first_pool (log (run B config after w2)) = 0.
Proof.
  intros w w1 w2 first_pool H1 H2.
  assert (pool_ok w) as [_ _ Hbuilt]
    by apply run_pool_ok, new_PostgresDriver_pool_ok.
  assert (w1 = with_pool (Some first_pool)
                 (with_log (log w ++ [EImport "pg"; ENewPool (pool_options config)])
                    w)) as Hw1.
  { unfold w1. by rewrite (initImpl_resolved B config w m1 H1). }
  assert (w2 = with_pool (Some (pools_created (log w1)))
                 (with_log (log w1 ++ [EImport "pg"; ENewPool (pool_options config)])
                    w1)) as Hw2.
  { unfold w2. by rewrite (initImpl_resolved B config w1 m2 H2). }
  assert (pools_created (log w1) = S first_pool) as Hn1.
  { rewrite Hw1. simpl. rewrite pools_created_app. simpl. unfold first_pool. lia. }
  split; [by rewrite Hw1|]. split; [by rewrite Hw2, Hn1|].
  rewrite run_keeps_retired.
  - rewrite Hw2. simpl. rewrite end_calls_on_app. simpl.
    rewrite Hw1. simpl. rewrite end_calls_on_app. simpl.
    rewrite Hbuilt; [lia|done].
  - rewrite Hw2. simpl. rewrite pools_created_app, Hn1. simpl.
    split; [lia|]. intros [= Heq]. lia.
Qed.

Lemma replaced_pool_is_never_ended_witness :
  import_settles Scenario.ok (log new_PostgresDriver ++ [EImport "pg"]) =
    Fulfilled PgModule ∧
  import_settles Scenario.ok (log Scenario.initialised ++ [EImport "pg"]) =
    Fulfilled PgModule ∧
  end_calls_on 0
    (log (run Scenario.ok Scenario.plain [OpInit; OpInit; OpDestroy; OpDestroy]
            new_PostgresDriver)) = 0.
Proof.
  split; [reflexivity|]. split; [reflexivity|].
  destruct (replaced_pool_is_never_ended Scenario.ok Scenario.plain []
              [OpDestroy; OpDestroy] PgModule PgModule eq_refl eq_refl)
    as (_ & _ & Hnever).
  exact Hnever.
Defined.

(** X9.  When the driver holds a pool and [pool.end()] rejects with [e],
    [destroyImpl] fails with [e] after that one call, and the pool handle is
    null all the same.  A further [destroyImpl] then returns normally without
    calling [pool.end()] again, and an acquisition fails on the null handle. *)
Theorem failed_end_is_not_retried (B : backend) (config : DriverConfig)
    (w : world) (p : pool_ref) (e : js_error) :
  pool w = Some p →
  end_settles B (log w ++ [EPoolEnd p]) = Rejected e →
  let r := destroyImpl B w in
  r = (Throw e, with_pool None (with_log (log w ++ [EPoolEnd p]) w)) ∧
  destroyImpl B (snd r) = (Normal tt, snd r) ∧
  acquireConnectionImpl B config (snd r) =
    (Throw (null_property_error "connect"), snd r).
Proof.
  intros Hp He r.
  assert (r = (Throw e, with_pool None (with_log (log w ++ [EPoolEnd p]) w)))
    as Hr.
  { unfold r. by rewrite (destroyImpl_pool B w p Hp), He. }
  split; [done|]. rewrite Hr. simpl.
  split; [by apply destroyImpl_no_pool | by apply acquire_no_pool].
Qed.

Lemma failed_end_is_not_retried_witness :
  pool Scenario.initialised = Some 0 ∧
  end_settles Scenario.stuck_pool (log Scenario.initialised ++ [EPoolEnd 0]) =
    Rejected Scenario.end_failure ∧
  fst (destroyImpl Scenario.stuck_pool Scenario.initialised) =
    Throw Scenario.end_failure ∧
  destroyImpl Scenario.stuck_pool
    (snd (destroyImpl Scenario.stuck_pool Scenario.initialised)) =
    (Normal tt, snd (destroyImpl Scenario.stuck_pool Scenario.initialised)).
Proof.
  split; [reflexivity|]. split; [reflexivity|].
  destruct (failed_end_is_not_retried Scenario.stuck_pool Scenario.plain
              Scenario.initialised 0 Scenario.end_failure eq_refl eq_refl)
    as (Hr & Hagain & _).
  split; [by rewrite Hr | exact Hagain].
Defined.

(** X10.  [destroyImpl] is not final and does not clear the cache.  After a
    [destroyImpl] in any world, an [initImpl] for which [pg] resolves puts a
    newly built pool in the handle and leaves cache and wrappers as they were
    before the [destroyImpl]; an acquisition then goes to the new pool, and a
    client that was cached before gets its old wrapper back. *)
Theorem init_after_destroy_revives (B : backend) (config : DriverConfig)
    (w : world) (m : pg_module) :
  let w1 := snd (destroyImpl B w) in
  let w2 := snd (initImpl B config w1) in
  import_settles B (log w1 ++ [EImport "pg"]) = Fulfilled m →
  pool w2 = Some (pools_created (log w1)) ∧
  connections w2 = connections w ∧
  wrappers w2 = wrappers w ∧
  (∀ c k, connections w !! c = Some k →
          hands_out B w2 c →
          acquireConnectionImpl B config w2 =
            (Normal k,
             with_log (log w2 ++ [EPoolConnect (pools_created (log w1))]) w2)).
Proof.
  intros w1 w2 Hm.
  assert (connections w1 = connections w ∧ wrappers w1 = wrappers w) as [Hc1 Hw1].
  { unfold w1. destruct (pool w) as [p|] eqn:Hp.
    - by rewrite (destroyImpl_pool B w p Hp).
    - by rewrite (destroyImpl_no_pool B w Hp). }
  assert (w2 = with_pool (Some (pools_created (log w1)))
                 (with_log (log w1 ++ [EImport "pg"; ENewPool (pool_options config)])
                    w1)) as Hw2.
  { unfold w2. by rewrite (initImpl_resolved B config w1 m Hm). }
  assert (connections w2 = connections w) as Hc2 by by rewrite Hw2.
  split; [by rewrite Hw2|]. split; [done|]. split; [by rewrite Hw2|].
  intros c k Hk (p & Hp & Hout).
  assert (p = pools_created (log w1)) as -> by (rewrite Hw2 in Hp; by injection Hp).
  apply acquire_cached with (c := c); [done|done|by rewrite Hc2].
Qed.

Lemma init_after_destroy_revives_witness :
  import_settles Scenario.ok
    (log (snd (destroyImpl Scenario.ok (Scenario.connected Scenario.ok))) ++
       [EImport "pg"]) = Fulfilled PgModule ∧
  pool (run Scenario.ok Scenario.plain [OpInit; OpAcquire; OpDestroy; OpInit]
          new_PostgresDriver) = Some 1 ∧
  fst (acquireConnectionImpl Scenario.ok Scenario.plain
         (run Scenario.ok Scenario.plain [OpInit; OpAcquire; OpDestroy; OpInit]
            new_PostgresDriver)) = Normal 0.
Proof.
  split; [reflexivity|].
  destruct (init_after_destroy_revives Scenario.ok Scenario.plain
              (Scenario.connected Scenario.ok) PgModule eq_refl)
    as (Hpool & _ & _ & Hcached).
  split; [exact Hpool|].
  assert (hands_out Scenario.ok
            (run Scenario.ok Scenario.plain [OpInit; OpAcquire; OpDestroy; OpInit]
               new_PostgresDriver) 7) as Hout
    by (exists 1; split; vm_compute; reflexivity).
  assert (connections (Scenario.connected Scenario.ok) !! 7 = Some 0) as Hk
    by (vm_compute; reflexivity).
  exact (f_equal fst (Hcached 7 0 Hk Hout)).
Defined.

(** ** Wrappers and the clients behind them *)

(** A wrapper that an acquisition returns is cached under the client the pool
    handed out. *)
Lemma acquire_caches_what_it_returns (B : backend) (config : DriverConfig)
    (w : world) (c : client) (k : conn_ref) :
  hands_out B w c →
  fst (acquireConnectionImpl B config w) = Normal k →
  connections (snd (acquireConnectionImpl B config w)) !! c = Some k.
Proof.
  intros Hout Hret. destruct (connections w !! c) as [k'|] eqn:Hk.
  - destruct (later_acquisition B config w c k' Hk Hout) as (p & _ & Hacq).
    rewrite Hacq in Hret |- *. simpl in *. congruence.
  - destruct (first_acquisition B config w c Hk Hout) as (Hk1 & _ & Hr1).
    rewrite Hk1. f_equal. rewrite Hr1 in Hret.
    destruct (onCreateConnection (cfg_pool config)) as [hook|];
      [destruct (hook _)|]; congruence.
Qed.

(** After any calls on a new driver, an acquisition that returns [k] for the
    client [c], and any further calls: [k] is a wrapper around [c]. *)
Lemma acquired_wrapper_wraps (B : backend) (config : DriverConfig)
    (before between : list op) (c : client) (k : conn_ref) :
  let w0 := run B config before new_PostgresDriver in
  let acq := acquireConnectionImpl B config w0 in
  let w2 := run B config between (snd acq) in
  hands_out B w0 c →
  fst acq = Normal k →
  wrappers w2 !! k = Some (wrapper_of c).
Proof.
  intros w0 acq w2 Hout Hret.
  assert (cache_ok config w2) as Hok.
  { apply run_cache_ok, acquire_cache_ok, run_cache_ok, new_PostgresDriver_ok. }
  apply (cached_wraps _ _ Hok), run_keeps.
  by apply acquire_caches_what_it_returns.
Qed.

(** X1.  After any calls on a new driver, let an acquisition in which the
    pool hands out client [c] return wrapper [k].  After any further calls,
    [releaseConnectionImpl] on [k] makes exactly one call, [client.release()]
    on [c]; it completes as that call completes, passing on what it throws,
    and changes nothing in the driver: the wrapper stays in the cache. *)
Theorem release_gives_back_the_acquired_client (B : backend)
    (config : DriverConfig) (before between : list op) (c : client)
    (k : conn_ref) :
  let w0 := run B config before new_PostgresDriver in
  let acq := acquireConnectionImpl B config w0 in
  let w2 := run B config between (snd acq) in
  hands_out B w0 c →
  fst acq = Normal k →
  releaseConnectionImpl B k w2 =
    (match release_completes B (log w2 ++ [EClientRelease c]) with
     | Normal _ => Normal tt
     | Throw e => Throw e
     end,
     with_log (log w2 ++ [EClientRelease c]) w2).
Proof.
  intros w0 acq w2 Hout Hret.
  pose proof (acquired_wrapper_wraps B config before between c k Hout Hret) as Hk.
  fold w0 acq w2 in Hk.
  unfold releaseConnectionImpl. rewrite Hk. js_step. simpl.
  by destruct (release_completes B _) as [[]|e].
Qed.

Lemma release_gives_back_the_acquired_client_witness :
  hands_out Scenario.ok
    (run Scenario.ok Scenario.plain [OpInit] new_PostgresDriver) 7 ∧
  fst (acquireConnectionImpl Scenario.ok Scenario.plain
         (run Scenario.ok Scenario.plain [OpInit] new_PostgresDriver)) =
    Normal 0 ∧
  log (snd (releaseConnectionImpl Scenario.ok 0
              (run Scenario.ok Scenario.plain
                 [OpInit; OpAcquire; OpExecute 0 Scenario.insert_user]
                 new_PostgresDriver))) =
    log (run Scenario.ok Scenario.plain
           [OpInit; OpAcquire; OpExecute 0 Scenario.insert_user]
           new_PostgresDriver) ++ [EClientRelease 7].
Proof.
  assert (hands_out Scenario.ok
            (run Scenario.ok Scenario.plain [OpInit] new_PostgresDriver) 7)
    as Hout by (exists 0; split; vm_compute; reflexivity).
  split; [exact Hout|]. split; [reflexivity|].
  exact (f_equal (fun r => log (snd r))
           (release_gives_back_the_acquired_client Scenario.ok Scenario.plain
              [OpInit] [OpExecute 0 Scenario.insert_user] 7 0 Hout eq_refl)).
Defined.

(** X2.  After any calls on a new driver, let an acquisition in which the
    pool hands out client [c] return wrapper [k].  After any further calls,
    a query executed through [k] is sent to [c], with the statement text and
    the bindings of the compiled query. *)
Theorem query_goes_to_the_acquired_client (B : backend) (config : DriverConfig)
    (before between : list op) (c : client) (k : conn_ref) (q : CompiledQuery) :
  let w0 := run B config before new_PostgresDriver in
  let acq := acquireConnectionImpl B config w0 in
  let w2 := run B config between (snd acq) in
  hands_out B w0 c →
  fst acq = Normal k →
  log (exec B config (OpExecute k q) w2) =
    log w2 ++ [EClientQuery c (sql q) (bindings q)].
Proof.
  intros w0 acq w2 Hout Hret.
  pose proof (acquired_wrapper_wraps B config before between c k Hout Hret) as Hk.
  fold w0 acq w2 in Hk. simpl. rewrite Hk.
  destruct (query_settles B (log w2 ++ [query_event (wrapper_of c) q]))
    as [ans|e] eqn:Hq.
  - by rewrite (executeQuery_fulfilled B (wrapper_of c) q w2 ans Hq).
  - by rewrite (executeQuery_rejected B (wrapper_of c) q w2 e Hq).
Qed.

Lemma query_goes_to_the_acquired_client_witness :
  hands_out Scenario.ok
    (run Scenario.ok Scenario.plain [OpInit] new_PostgresDriver) 7 ∧
  fst (acquireConnectionImpl Scenario.ok Scenario.plain
         (run Scenario.ok Scenario.plain [OpInit] new_PostgresDriver)) =
    Normal 0 ∧
  log (run Scenario.ok Scenario.plain
         [OpInit; OpAcquire; OpRelease 0; OpExecute 0 Scenario.insert_user]
         new_PostgresDriver) =
    log (run Scenario.ok Scenario.plain [OpInit; OpAcquire; OpRelease 0]
           new_PostgresDriver) ++
    [EClientQuery 7 (sql Scenario.insert_user) (bindings Scenario.insert_user)].
Proof.
  assert (hands_out Scenario.ok
            (run Scenario.ok Scenario.plain [OpInit] new_PostgresDriver) 7)
    as Hout by (exists 0; split; vm_compute; reflexivity).
  split; [exact Hout|]. split; [reflexivity|].
  exact (query_goes_to_the_acquired_client Scenario.ok Scenario.plain
           [OpInit] [OpRelease 0] 7 0 Scenario.insert_user Hout eq_refl).
Defined.

(** X3.  [client.release()] is called by [releaseConnectionImpl] and by
    nothing else: a release of a wrapper the driver built makes one such
    call, and no other call on the driver or on a wrapper makes any —
    neither an acquisition whose hook fails, nor a failed query, nor
    [destroyImpl]. *)
Theorem only_release_gives_clients_back (B : backend) (config : DriverConfig)
    (o : op) (w : world) :
  release_calls (log (exec B config o w)) =
    release_calls (log w) +
    match o with
    | OpRelease k => match wrappers w !! k with Some _ => 1 | None => 0 end
    | _ => 0
    end.
Proof.
  destruct o as [| | |k|k q|m]; simpl.
  - destruct (import_settles B (log w ++ [EImport "pg"])) as [m|e] eqn:Hi.
    + rewrite (initImpl_resolved B config w m Hi). simpl.
      rewrite release_calls_app. simpl. lia.
    + rewrite (initImpl_rejected B config w e Hi). simpl.
      rewrite release_calls_app. simpl. lia.
  - destruct (pool w) as [p|] eqn:Hp.
    + rewrite (destroyImpl_pool B w p Hp). simpl.
      rewrite release_calls_app. simpl. lia.
    + rewrite (destroyImpl_no_pool B w Hp). simpl. lia.
  - destruct (pool w) as [p|] eqn:Hp.
    2:{ rewrite (acquire_no_pool B config w Hp). simpl. lia. }
    destruct (connect_settles B (log w ++ [EPoolConnect p])) as [c|e] eqn:Hc.
    2:{ rewrite (acquire_refused B config w p e Hp Hc). simpl.
        rewrite release_calls_app. simpl. lia. }
    destruct (connections w !! c) as [k|] eqn:Hk.
    { rewrite (acquire_cached B config w p c k Hp Hc Hk). simpl.
      rewrite release_calls_app. simpl. lia. }
    destruct (onCreateConnection (cfg_pool config)) as [hook|] eqn:Hh.
    + rewrite (acquire_first_hook B config w p c hook Hp Hc Hk Hh). simpl.
      rewrite release_calls_app. simpl. lia.
    + rewrite (acquire_first_no_hook B config w p c Hp Hc Hk Hh). simpl.
      rewrite release_calls_app. simpl. lia.
  - unfold releaseConnectionImpl.
    destruct (wrappers w !! k) as [this|]; [|simpl; lia].
    js_step. simpl.
    destruct (release_completes B _) as [[]|e]; simpl;
      rewrite release_calls_app; simpl; lia.
  - destruct (wrappers w !! k) as [this|]; [|lia].
    destruct (query_settles B (log w ++ [query_event this q])) as [ans|e] eqn:Hq.
    + rewrite (executeQuery_fulfilled B this q w ans Hq). simpl.
      rewrite release_calls_app. simpl. lia.
    + rewrite (executeQuery_rejected B this q w e Hq). simpl.
      rewrite release_calls_app. simpl. lia.
  - destruct m as [o f v|o f|a r]; simpl; [| |lia];
      unfold write_object, throw;
      destruct (objects w !! o) as [ob|]; simpl; try lia;
      destruct (frozen ob); simpl; lia.
Qed.

Lemma cache_step_size (config : DriverConfig) (w w' : world) :
  cache_step config w w' →
  size (connections w) = length (wrappers w) →
  size (connections w') = length (wrappers w').
Proof.
  intros [d Hc Hw _ _ | d c Hnone Hc Hw _ _] Hsize; rewrite Hc, Hw.
  - done.
  - rewrite map_size_insert_None, length_app by done. simpl. lia.
Qed.

Lemma run_cache_size (B : backend) (config : DriverConfig) (ops : list op)
    (w : world) :
  size (connections w) = length (wrappers w) →
  size (connections (run B config ops w)) = length (wrappers (run B config ops w)).
Proof.
  revert w. induction ops as [|o ops IH]; intros w Hw; [done|].
  simpl. apply IH. eapply cache_step_size; [|done]. apply exec_cache_step.
Qed.

(** X4.  After any calls on a new driver, cache and wrappers match one to
    one: no wrapper is cached under two clients, every wrapper built is
    cached under the client it wraps, and there are exactly as many wrappers
    as there are cached clients. *)
Theorem one_wrapper_per_client (B : backend) (config : DriverConfig)
    (ops : list op) :
  let w := run B config ops new_PostgresDriver in
  (∀ c1 c2 k, connections w !! c1 = Some k → connections w !! c2 = Some k →
              c1 = c2) ∧
  (∀ k this, wrappers w !! k = Some this →
             connections w !! conn_client this = Some k) ∧
  size (connections w) = length (wrappers w).
Proof.
  intros w.
  assert (cache_ok config w) as [Hcw Hwc _]
    by apply run_cache_ok, new_PostgresDriver_ok.
  split; [|split].
  - intros c1 c2 k H1 H2. apply Hcw in H1, H2.
    rewrite H1 in H2. by injection H2.
  - intros k [c] Hk. by apply Hwc.
  - by apply run_cache_size.
Qed.

(** X5.  After any calls on a new driver, the hook has been called exactly
    once with every wrapper built, if a hook is configured, and never with
    anything else; without a hook it has never been called. *)
Theorem hook_once_per_wrapper (B : backend) (config : DriverConfig)
    (ops : list op) (k : conn_ref) :
  let w := run B config ops new_PostgresDriver in
  hook_calls k (log w) =
    if decide (k < length (wrappers w)) then hook_quota config else 0.
Proof.
  intros w.
  assert (cache_ok config w) as [_ _ Hh]
    by apply run_cache_ok, new_PostgresDriver_ok.
  apply Hh.
Qed.

(** ** How an acquisition can fail *)

(** X12.  An acquisition fails in three ways only: the pool handle is null,
    and it fails with the engine's [TypeError] without calling anything; or
    [pool.connect()] rejects, and it fails with that very error, having built
    and cached nothing; or the pool hands out a client seen for the first
    time and the hook rejects, and it fails with the hook's error. *)
Theorem acquisition_fails_three_ways (B : backend) (config : DriverConfig)
    (w : world) (e : js_error) :
  let acq := acquireConnectionImpl B config w in
  fst acq = Throw e →
  (pool w = None ∧ e = null_property_error "connect" ∧ snd acq = w) ∨
  (∃ p, pool w = Some p ∧
        connect_settles B (log w ++ [EPoolConnect p]) = Rejected e ∧
        snd acq = with_log (log w ++ [EPoolConnect p]) w) ∨
  (∃ p c hook,
        pool w = Some p ∧
        connect_settles B (log w ++ [EPoolConnect p]) = Fulfilled c ∧
        connections w !! c = None ∧
        onCreateConnection (cfg_pool config) = Some hook ∧
        hook (log (snd acq)) = Rejected e).
Proof.
  intros acq. unfold acq.
  destruct (pool w) as [p|] eqn:Hp.
  2:{ rewrite (acquire_no_pool B config w Hp). simpl. intros [= <-]. by left. }
  destruct (connect_settles B (log w ++ [EPoolConnect p])) as [c|e'] eqn:Hc.
  2:{ rewrite (acquire_refused B config w p e' Hp Hc). simpl. intros [= <-].
      right. left. by exists p. }
  destruct (connections w !! c) as [k|] eqn:Hk.
  { by rewrite (acquire_cached B config w p c k Hp Hc Hk). }
  destruct (onCreateConnection (cfg_pool config)) as [hook|] eqn:Hh.
  - rewrite (acquire_first_hook B config w p c hook Hp Hc Hk Hh). simpl.
    destruct (hook _) as [[]|e'] eqn:He; [done|]. intros [= <-].
    right. right. by exists p, c, hook.
  - by rewrite (acquire_first_no_hook B config w p c Hp Hc Hk Hh).
Qed.

Lemma acquisition_fails_three_ways_witness :
  fst (acquireConnectionImpl Scenario.ok Scenario.failing
         (run Scenario.ok Scenario.failing [OpInit] new_PostgresDriver)) =
    Throw Scenario.hook_failure ∧
  ∃ p c hook,
    pool (run Scenario.ok Scenario.failing [OpInit] new_PostgresDriver) = Some p ∧
    connections (run Scenario.ok Scenario.failing [OpInit] new_PostgresDriver)
      !! c = None ∧
    onCreateConnection (cfg_pool Scenario.failing) = Some hook.
Proof.
  split; [reflexivity|].
  destruct (acquisition_fails_three_ways Scenario.ok Scenario.failing
              (run Scenario.ok Scenario.failing [OpInit] new_PostgresDriver)
              Scenario.hook_failure eq_refl)
    as [(Hp & _) | [(p & _ & Hc & _) | (p & c & hook & Hp & _ & Hk & Hh & _)]].
  - discriminate Hp.
  - discriminate Hc.
  - by exists p, c, hook.
Defined.

(** ** The loader, once more *)

(** X13.  [importPg] settles as [import('pg')] settles and in no other way:
    it asks the loader once, returns the module when the loader resolves it,
    and fails with [e] exactly when the loader rejects with [e].  The error
    built in its [catch] block is therefore thrown in no case. *)
Theorem importPg_settles_as_the_loader (B : backend) (w : world) :
  log (snd (importPg B w)) = log w ++ [EImport "pg"] ∧
  (∀ m, fst (importPg B w) = Normal m ↔
        import_settles B (log w ++ [EImport "pg"]) = Fulfilled m) ∧
  (∀ e, fst (importPg B w) = Throw e ↔
        import_settles B (log w ++ [EImport "pg"]) = Rejected e).
Proof.
  rewrite importPg_settles. simpl.
  destruct (import_settles B _) as [m0|e0]; repeat split; congruence.
Qed.
